(** * goutils/netutils: typed connections over net.Conn

    A shallow embedding of [TypedConnection.Read], [TypedConnection.Write]
    and [TCPTypedConnection.ReadFrom], together with the pieces of the Go
    runtime and standard library they lean on: error values
    ([errors.New], [errors.Join], [errors.Is], [io.EOF]), slices that may be
    nil, run-time panics, and a byte-level model of [net.Conn]. *)

From Stdlib Require Import ZArith List String Bool Lia.
From Stdlib Require Import Strings.Byte.
Import ListNotations.
Open Scope string_scope.
Open Scope list_scope.
Open Scope Z_scope.

Set Warnings "-register-all".

Set Implicit Arguments.

(* ================================================================== *)
(** ** Go error values *)

(** An [error] is either a leaf created by [errors.New] (or by
    [fmt.Errorf] without a wrapping verb), the sentinel [io.EOF], or the
    value built by [errors.Join], which keeps all the errors it was given.
    Go compares error values by identity; leaves are compared here by
    their text, and the sentinel is kept apart from every leaf. *)
Inductive error : Type :=
| errorString (text : string)
| sentinelEOF
| joinError (errs : list error).

Fixpoint error_eqb (a b : error) {struct a} : bool :=
  match a, b with
  | errorString s, errorString t => String.eqb s t
  | sentinelEOF, sentinelEOF => true
  | joinError xs, joinError ys =>
      (fix all2 (l : list error) (r : list error) {struct l} : bool :=
         match l, r with
         | [], [] => true
         | x :: l', y :: r' => error_eqb x y && all2 l' r'
         | _, _ => false
         end) xs ys
  | _, _ => false
  end.

Module io.
Definition EOF : error := sentinelEOF.
End io.

Module errors.

Definition New (text : string) : error := errorString text.

(** [errors.Join] drops nil arguments, and is nil when nothing is left. *)
Fixpoint nonNil (errs : list (option error)) : list error :=
  match errs with
  | [] => []
  | Some e :: rest => e :: nonNil rest
  | None :: rest => nonNil rest
  end.

Definition Join (errs : list (option error)) : option error :=
  match nonNil errs with
  | [] => None
  | kept => Some (joinError kept)
  end.

(** [errors.Is]: the error itself, or anything in the tree that
    [Unwrap() []error] exposes, matches the target. *)
Fixpoint Is (err target : error) {struct err} : bool :=
  error_eqb err target ||
  match err with
  | joinError errs => existsb (fun e => Is e target) errs
  | _ => false
  end.

End errors.

Module fmt.
(** [fmt.Errorf(format, arg)] for a format that ends in one [%s] verb:
    a leaf error, nothing is wrapped. *)
Definition Errorf_s (prefix arg : string) : error :=
  errorString (String.append prefix arg).
End fmt.

(* ================================================================== *)
(** ** Outcomes of a call *)

Inductive panic : Type :=
| indexOutOfRange (index : Z) (len : nat)
| makesliceLenOutOfRange
| makesliceCapOutOfRange
| nilPointerDereference.

(** A call returns, panics, blocks for ever on a connection on which
    nothing more arrives, or is still looping when the fuel is spent. *)
Inductive outcome (A : Type) : Type :=
| Returned (a : A)
| Panicked (p : panic)
| Blocked
| OutOfFuel.

Arguments Returned {A} a.
Arguments Panicked {A} p.
Arguments Blocked {A}.
Arguments OutOfFuel {A}.

Definition bind {A B : Type} (m : outcome A) (k : A -> outcome B) : outcome B :=
  match m with
  | Returned a => k a
  | Panicked p => Panicked p
  | Blocked => Blocked
  | OutOfFuel => OutOfFuel
  end.

Notation "x <- m ;; k" := (bind m (fun x => k))
  (at level 61, m at next level, right associativity).

(** The largest number of bytes the runtime lets one allocation ask
    for: [maxAlloc], 2^48 where [int] has 64 bits and the heap 48 address
    bits.  [makeslice] panics for a size outside [0, maxAlloc]; a size
    inside is taken to be served (a machine that runs out of memory is
    not modelled). *)
Definition maxAlloc : Z := 281474976710656.

(** [make([]byte, n)]: n zero bytes; a panic (len out of range) when n is
    negative or larger than [maxAlloc]. *)
Definition make_len (n : Z) : outcome (list byte) :=
  if (n <? 0) || (maxAlloc <? n) then Panicked makesliceLenOutOfRange
  else Returned (repeat x00 (Z.to_nat n)).

(** [make([]byte, 0, n)]: the empty slice; a panic (cap out of range)
    when n is negative or larger than [maxAlloc]. *)
Definition make_cap (n : Z) : outcome (list byte) :=
  if (n <? 0) || (maxAlloc <? n) then Panicked makesliceCapOutOfRange
  else Returned [].

(* ================================================================== *)
(** ** The Convertable interface *)

Class Convertable (T : Type) : Type := {
  (** the value of [var newData T] *)
  zeroValue : T;
  (** what [reflect.TypeOf] prints for a [*T] *)
  pointerTypeName : string;
  (** [fmt.Stringer] *)
  toString : T -> string;
  (** [Marshal() (data []byte, err error)] *)
  Marshal : T -> list byte * option error;
  (** [Unmarshal(v any, data []byte) error], called as
      [x.Unmarshal(&x, data)]: from the present contents of [x] and the
      data, the contents of [x] afterwards and the error. *)
  Unmarshal : T -> list byte -> T * option error
}.

(* ================================================================== *)
(** ** ReadOptions *)

Record ReadOptions : Type := {
  BufferSize : Z;
  ChunkSize : Z
}.

Definition defaultReadOptions : ReadOptions :=
  {| BufferSize := 4096; ChunkSize := 256 |}.

(** A variadic [opts ...ReadOptions] is a slice: nil ([None]) when the
    call passes no options, and otherwise the slice the caller built,
    which can be empty without being nil ([Some []]).

    [if opts == nil { defaultReadOptions() } else { opts[0] }] *)
Definition variadicReadOpts (opts : option (list ReadOptions)) : outcome ReadOptions :=
  match opts with
  | None => Returned defaultReadOptions
  | Some l =>
      match l with
      | first :: _ => Returned first
      | [] => Panicked (indexOutOfRange 0 0)
      end
  end.

(* ================================================================== *)
(** ** ConnectionType *)

Definition ConnectionType : Type := Z.
Definition ConnectionTypeTCP : ConnectionType := 0.
Definition ConnectionTypeUDP : ConnectionType := 1.

Definition ConnectionType_String (ct : ConnectionType) : string :=
  if ct =? ConnectionTypeTCP then "tcp"
  else if ct =? ConnectionTypeUDP then "udp"
  else "unknown".

(* ================================================================== *)
(** ** net.Conn *)

(** The dynamic type behind a [net.Conn] value; the type switch of
    [ReadFrom] looks at nothing else. *)
Inductive connImpl : Type :=
| TCPConn
| UDPConn
| pipeConn.

(** What a read runs into before it looks for data: the connection was
    closed on this side ([Close]), or a read deadline ([SetReadDeadline],
    [SetDeadline]) had passed before the call.  Each comes with the error
    the read then reports. *)
Inductive readBar : Type :=
| closedHere (e : error)
| deadlineOver (e : error).

Definition barError (b : readBar) : error :=
  match b with
  | closedHere e => e
  | deadlineOver e => e
  end.

(** The state of one end of a connection.

    - [barred]: what stands in the way of a read before it looks for
      data, if anything;
    - [inbox]: what has arrived and was not read yet, in the pieces in
      which it arrived;
    - [closing]: what a read finds once the inbox is empty: nothing yet
      ([None], the read blocks), or an error [e], handed over together
      with some last bytes ([Some (last, e)]); a peer that closed a
      stream is [Some ([], io.EOF)], a read deadline that passes while
      the read waits is [Some ([], timeout)];
    - [outbox]: the buffers handed to the transport so far, oldest
      first: what the peer observes;
    - [writeFault]: a transport that fails on writing takes that many
      bytes of a buffer and reports the error (a connection closed on
      this side takes none). *)
Record Conn : Type := {
  impl : connImpl;
  barred : option readBar;
  inbox : list (list byte);
  closing : option (list byte * error);
  outbox : list (list byte);
  writeFault : option (nat * error)
}.

Definition setInbox (c : Conn) (segments : list (list byte)) : Conn :=
  {| impl := impl c; barred := barred c; inbox := segments; closing := closing c;
     outbox := outbox c; writeFault := writeFault c |}.

Definition setOutbox (c : Conn) (sent : list (list byte)) : Conn :=
  {| impl := impl c; barred := barred c; inbox := inbox c; closing := closing c;
     outbox := sent; writeFault := writeFault c |}.

Definition setBarred (c : Conn) (bar : option readBar) : Conn :=
  {| impl := impl c; barred := bar; inbox := inbox c; closing := closing c;
     outbox := outbox c; writeFault := writeFault c |}.

(** What one call on the connection hands back: the count, the error and
    the connection afterwards. *)
Record transfer : Type := {
  count : Z;
  failure : option error;
  connAfter : Conn
}.

(** A read that looks for data.  It takes at most [size] bytes of the
    oldest piece; what it leaves of the piece stays for the next read,
    except on a UDP connection, where a piece is a datagram and what does
    not fit is lost.  With no data left it finds what lies behind the
    data: nothing yet ([None]: the read blocks for ever), or the error,
    with the bytes handed over together with it. *)
Definition takeData (c : Conn) (size : nat)
  : option (list byte * option error * Conn) :=
  match inbox c with
  | piece :: rest =>
      match skipn size piece with
      | [] => Some (firstn size piece, None, setInbox c rest)
      | remainder =>
          match impl c with
          | UDPConn => Some (firstn size piece, None, setInbox c rest)
          | _ => Some (firstn size piece, None, setInbox c (remainder :: rest))
          end
      end
  | [] =>
      match closing c with
      | Some (last, e) => Some (firstn size last, Some e, c)
      | None => None
      end
  end.

(** The peer of a pipe has closed and nothing is on its way. *)
Definition peerGone (c : Conn) : bool :=
  match inbox c, closing c with
  | [], Some (_, e) => errors.Is e io.EOF
  | _, _ => false
  end.

(** [conn.Read(p)] with [len(p) = size]: [None] when the call blocks for
    ever; otherwise the bytes put at the front of [p] (their number is
    the count returned), the error and the connection afterwards.

    - On a connection closed on this side every read fails.
    - A socket ([TCPConn], [UDPConn]) returns at once from a read into an
      empty slice, with nothing and no error, before it looks at the
      deadline or at the data.  A pipe treats such a read as any other.
    - A read deadline that has passed fails the read, and the data stays
      where it is; on a pipe the end-of-stream of a peer that has closed
      is reported first.
    - Otherwise the read looks for data. *)
Definition conn_Read (c : Conn) (size : nat) : option (list byte * option error * Conn) :=
  match barred c with
  | Some (closedHere e) => Some ([], Some e, c)
  | Some (deadlineOver e) =>
      match impl c with
      | pipeConn => if peerGone c then takeData c size else Some ([], Some e, c)
      | _ =>
          match size with
          | O => Some ([], None, c)
          | S _ => Some ([], Some e, c)
          end
      end
  | None =>
      match impl c with
      | pipeConn => takeData c size
      | _ =>
          match size with
          | O => Some ([], None, c)
          | S _ => takeData c size
          end
      end
  end.

(** [conn.Write(b)] *)
Definition conn_Write (c : Conn) (b : list byte) : transfer :=
  match writeFault c with
  | None =>
      {| count := Z.of_nat (List.length b); failure := None;
         connAfter := setOutbox c (outbox c ++ [b]) |}
  | Some (taken, e) =>
      {| count := Z.of_nat (List.length (firstn taken b)); failure := Some e;
         connAfter := setOutbox c (outbox c ++ [firstn taken b]) |}
  end.

(** The [ReadFrom(r)] method of a TCP connection, for
    [r = bytes.NewReader(src)].  It is the [io.ReaderFrom] of the
    connection: the bytes are read from [r] and
    written to the connection, and the count is the number of bytes
    copied.  The reader only reads [src]; an empty reader is at its end
    and nothing is written. *)
Definition TCPConn_ReadFrom (c : Conn) (src : list byte) : transfer :=
  match src with
  | [] => {| count := 0; failure := None; connAfter := c |}
  | _ => conn_Write c src
  end.

(* ================================================================== *)
(** ** TypedConnection *)

Record TypedConnection (T : Type) : Type := {
  conn : Conn;
  connectionType : ConnectionType
}.

Arguments conn {T} t.
Arguments connectionType {T} t.

Definition NewTypedConnection (T : Type) (c : Conn) (ct : ConnectionType)
  : TypedConnection T :=
  {| conn := c; connectionType := ct |}.

(** [TCPTypedConnection] embeds a [TypedConnection]. *)
Record TCPTypedConnection (T : Type) : Type := {
  embedded : TypedConnection T
}.

Arguments embedded {T} t.

Definition NewTCPTypedConnection (T : Type) (c : Conn) : TCPTypedConnection T :=
  {| embedded := {| conn := c; connectionType := ConnectionTypeTCP |} |}.

(** What [Read] and [ReadFrom] leave behind: the two values returned,
    the contents of the cell [data] points to ([None] for a nil pointer)
    and the connection. *)
Record received (T : Type) : Type := {
  bytesRead : Z;
  readErr : option error;
  dataAfter : option T;
  connRead : Conn
}.

Arguments bytesRead {T} r.
Arguments readErr {T} r.
Arguments dataAfter {T} r.
Arguments connRead {T} r.

(** How the loop of [Read] is left. *)
Inductive loopExit : Type :=
| returnEOF (amount : Z) (err : error)
| breakWith (buffer : list byte).

(** [for { amount, err := tc.conn.Read(chunk); ... }] *)
Fixpoint readLoop (fuel : nat) (c : Conn) (chunkLen : nat) (buffer : list byte)
  : outcome (loopExit * Conn) :=
  match fuel with
  | O => OutOfFuel
  | S fuel' =>
      match conn_Read c chunkLen with
      | None => Blocked
      | Some (chunk, Some err, c') =>
          if errors.Is err io.EOF
          then Returned (returnEOF (Z.of_nat (List.length chunk)) err, c')
          else Returned (breakWith buffer, c')
      | Some (chunk, None, c') =>
          readLoop fuel' c' chunkLen (buffer ++ chunk)
      end
  end.

Section Operations.

Context {T : Type} `{Convertable T}.

(** [func (tc *TypedConnection[T]) Read(data *T, opts ...ReadOptions) (int, error)]

    [data] is [None] for a nil pointer and [Some old] for a pointer to a
    cell that holds [old]. *)
Definition Read (fuel : nat) (tc : TypedConnection T) (data : option T)
    (opts : option (list ReadOptions)) : outcome (received T) :=
  match data with
  | None =>
      Returned {| bytesRead := 0;
                  readErr := Some (errors.New "data pointer was nil");
                  dataAfter := None;
                  connRead := conn tc |}
  | Some old =>
      readOpts <- variadicReadOpts opts ;;
      buffer <- make_cap (BufferSize readOpts) ;;
      chunk <- make_len (ChunkSize readOpts) ;;
      how <- readLoop fuel (conn tc) (List.length chunk) buffer ;;
      match how with
      | (returnEOF amount err, c') =>
          Returned {| bytesRead := amount; readErr := Some err;
                      dataAfter := Some old; connRead := c' |}
      | (breakWith buffer', c') =>
          let (newData, err) := Unmarshal zeroValue buffer' in
          match err with
          | Some e =>
              Returned {| bytesRead := 0;
                          readErr := errors.Join
                            [Some (errors.New "unmarshal of data returned an error");
                             Some e];
                          dataAfter := Some old; connRead := c' |}
          | None =>
              Returned {| bytesRead := Z.of_nat (List.length buffer');
                          readErr := None;
                          dataAfter := Some newData; connRead := c' |}
          end
      end
  end.

(** [func (tc *TypedConnection[T]) Write(data T) (int, error)] *)
Definition Write (tc : TypedConnection T) (data : T) : transfer :=
  let (buffer, err) := Marshal data in
  match err with
  | Some e =>
      {| count := 0;
         failure := errors.Join
           [Some (errors.New "could not marshal data to write"); Some e];
         connAfter := conn tc |}
  | None => conn_Write (conn tc) buffer
  end.

(** [func (ttc *TCPTypedConnection[T]) ReadFrom(data *T, opts ...ReadOptions) (int64, error)] *)
Definition ReadFrom (ttc : TCPTypedConnection T) (data : option T)
    (opts : option (list ReadOptions)) : outcome (received T) :=
  readOpts <- variadicReadOpts opts ;;
  match impl (conn (embedded ttc)) with
  | TCPConn =>
      buffer <- make_len (BufferSize readOpts) ;;
      let sent := TCPConn_ReadFrom (conn (embedded ttc)) buffer in
      let amountRead := count sent in
      match failure sent with
      | Some e =>
          Returned {| bytesRead := amountRead;
                      readErr := errors.Join
                        [Some (errors.New "could not receive incoming buffer");
                         Some e];
                      dataAfter := data; connRead := connAfter sent |}
      | None =>
          let resizedBuffer := firstn (Z.to_nat amountRead) buffer in
          let (newData, err) := Unmarshal zeroValue resizedBuffer in
          match err with
          | Some _ =>
              Returned {| bytesRead := amountRead;
                          readErr := errors.Join
                            [Some (fmt.Errorf_s
                                     "could not unmarshal incoming buffer into "
                                     pointerTypeName)];
                          dataAfter := data; connRead := connAfter sent |}
          | None =>
              match data with
              | None => Panicked nilPointerDereference
              | Some _ =>
                  Returned {| bytesRead := amountRead; readErr := None;
                              dataAfter := Some newData;
                              connRead := connAfter sent |}
              end
          end
      end
  | _ =>
      Returned {| bytesRead := 0;
                  readErr := Some (errors.New
                    "conn is an invalid connection type for this method");
                  dataAfter := data; connRead := conn (embedded ttc) |}
  end.

End Operations.

(* ================================================================== *)
(** ** A connected pair *)

(** What [sender] wrote reaches [receiver] in the pieces in which it was
    written; [fin] is what the receiver finds behind it. *)
Definition deliver (sender receiver : Conn) (fin : option (list byte * error)) : Conn :=
  {| impl := impl receiver;
     barred := barred receiver;
     inbox := inbox receiver ++ outbox sender;
     closing := fin;
     outbox := outbox receiver;
     writeFault := writeFault receiver |}.

(** An upper bound on the number of reads that empty an inbox when the
    chunk is not empty: every read takes a byte or removes a piece. *)
Fixpoint inboxCost (segments : list (list byte)) : nat :=
  match segments with
  | [] => O
  | piece :: rest => S (List.length piece + inboxCost rest)
  end.

(** The bytes that reads of [size] bytes take out of the pieces: all of
    them in order, and on a UDP connection the first [size] bytes of
    every datagram. *)
Definition gathered (kind : connImpl) (size : nat) (segments : list (list byte))
  : list byte :=
  match kind with
  | UDPConn => List.concat (map (firstn size) segments)
  | _ => List.concat segments
  end.

(* ================================================================== *)
(** ** Two payload types *)

(** A string that travels as its bytes; its conversions never fail. *)
Inductive StringPayload : Type := stringPayload (s : string).

#[export] Instance StringPayload_Convertable : Convertable StringPayload := {
  zeroValue := stringPayload "";
  pointerTypeName := "*netutils.StringPayload";
  toString := fun p => match p with stringPayload s => s end;
  Marshal := fun p =>
    match p with stringPayload s => (list_byte_of_string s, None) end;
  Unmarshal := fun _ data => (stringPayload (string_of_list_byte data), None)
}.

(** A text that must not be empty and must not hold a NUL byte: [Marshal]
    refuses the first, [Unmarshal] the second and leaves its target as it
    was. *)
Inductive Token : Type := token (s : string).

Definition errEmptyToken : error := errors.New "token is empty".
Definition errBadToken : error := errors.New "token holds a NUL byte".

Definition isNul (b : byte) : bool :=
  match b with x00 => true | _ => false end.

#[export] Instance Token_Convertable : Convertable Token := {
  zeroValue := token "";
  pointerTypeName := "*netutils.Token";
  toString := fun p => match p with token s => s end;
  Marshal := fun p =>
    match p with
    | token "" => ([], Some errEmptyToken)
    | token s => (list_byte_of_string s, None)
    end;
  Unmarshal := fun target data =>
    if existsb isNul data then (target, Some errBadToken)
    else (token (string_of_list_byte data), None)
}.

(** An open connection on which nothing arrived and nothing was sent. *)
Definition idle (kind : connImpl) : Conn :=
  {| impl := kind; barred := None; inbox := []; closing := None; outbox := [];
     writeFault := None |}.

Definition errTimeout : error := errors.New "i/o timeout".

Definition hello : list byte := list_byte_of_string "hello".

(** What a receiver finds behind the data: the peer closed the stream,
    or the read deadline passed while the read was waiting. *)
Definition peerClosed : option (list byte * error) := Some ([], io.EOF).
Definition deadlinePassed : option (list byte * error) := Some ([], errTimeout).

(** A TCP connection with the given pieces waiting to be read. *)
Definition streamWith (segments : list (list byte))
    (fin : option (list byte * error)) : Conn :=
  {| impl := TCPConn; barred := None; inbox := segments; closing := fin;
     outbox := []; writeFault := None |}.

Definition smallOptions : ReadOptions := {| BufferSize := 8; ChunkSize := 4 |}.

Definition invalidConnectionType : error :=
  errors.New "conn is an invalid connection type for this method".

Definition hel : list byte := list_byte_of_string "hel".
Definition lo : list byte := list_byte_of_string "lo".

(** Two bytes, the second a NUL: no [Token] unmarshals from them. *)
Definition spoiled : list byte := [x68; x00].

(* ================================================================== *)
(** ** The remaining operations of the package *)

(** [func (tc *TypedConnection[T]) ConnectionType() ConnectionType] *)
Definition TypedConnection_ConnectionType (T : Type) (tc : TypedConnection T)
  : ConnectionType :=
  connectionType tc.

(** [net.Dial(network, address)]: what the network answers, a connection
    or an error. *)
Definition dialer : Type := string -> string -> Conn + error.

(** [func DialTCP[T Convertable](host, port string)], returning a
    [*TCPTypedConnection[T]] and an [error],

    with [net.Dial] as its first argument; the address is
    [fmt.Sprintf("%s:%s", host, port)]. *)
Definition DialTCP (T : Type) (net_Dial : dialer) (host port : string)
  : option (TCPTypedConnection T) * option error :=
  match net_Dial "tcp" (String.append host (String.append ":" port)) with
  | inr err => (None, Some err)
  | inl c => (Some (NewTCPTypedConnection T c), None)
  end.

(** A listening socket: the connections that were established and wait
    to be accepted, oldest first, and the error it reports once it is
    closed or broken. *)
Record TCPListener : Type := {
  backlog : list Conn;
  listenFault : option error
}.

(** [listener.Accept()]: [None] when the call blocks for ever. *)
Definition TCPListener_Accept (l : TCPListener)
  : option ((Conn + error) * TCPListener) :=
  match listenFault l with
  | Some e => Some (inr e, l)
  | None =>
      match backlog l with
      | c :: rest =>
          Some (inl c, {| backlog := rest; listenFault := listenFault l |})
      | [] => None
      end
  end.

Record TCPSocketListener (T : Type) : Type := {
  listener : TCPListener
}.

Arguments listener {T} t.

Definition NewTypedTCPSocketListener (T : Type) (l : TCPListener)
  : TCPSocketListener T :=
  {| listener := l |}.

(** [func (tsl *TCPSocketListener[T]) Accept()]: the two values returned,
    a [*TCPTypedConnection[T]] and an [error], and the listener
    afterwards. *)
Definition Accept (T : Type) (tsl : TCPSocketListener T)
  : outcome (option (TCPTypedConnection T) * option error * TCPSocketListener T) :=
  match TCPListener_Accept (listener tsl) with
  | None => Blocked
  | Some (inr err, l') => Returned (None, Some err, {| listener := l' |})
  | Some (inl c, l') =>
      Returned (Some (NewTCPTypedConnection T c), None, {| listener := l' |})
  end.

(** [Accept] called again and again, until [n] connections were handed
    out or a call did not hand one out. *)
Fixpoint acceptMany (T : Type) (n : nat) (tsl : TCPSocketListener T)
  : list (TCPTypedConnection T) :=
  match n with
  | O => []
  | S n' =>
      match Accept tsl with
      | Returned (Some ttc, _, tsl') => ttc :: acceptMany n' tsl'
      | _ => []
      end
  end.

(** What the caller of [Read] or [ReadFrom] has in hand afterwards: the
    two values returned and the contents of the destination. *)
Definition observed (T : Type) (o : outcome (received T))
  : outcome (Z * option error * option T) :=
  match o with
  | Returned r => Returned (bytesRead r, readErr r, dataAfter r)
  | Panicked p => Panicked p
  | Blocked => Blocked
  | OutOfFuel => OutOfFuel
  end.

(** The same end of a connection with everything on the sending side
    replaced. *)
Definition withSending (c : Conn) (kind : connImpl) (sent : list (list byte))
    (fault : option (nat * error)) : Conn :=
  {| impl := kind; barred := barred c; inbox := inbox c; closing := closing c;
     outbox := sent; writeFault := fault |}.

(** The same end of a connection with what arrived, and what lies
    behind it, replaced. *)
Definition withIncoming (c : Conn) (segments : list (list byte))
    (fin : option (list byte * error)) : Conn :=
  {| impl := impl c; barred := barred c; inbox := segments; closing := fin;
     outbox := outbox c; writeFault := writeFault c |}.

Definition errBrokenPipe : error := errors.New "write: broken pipe".

(** A TCP connection whose transport takes [taken] bytes of a write and
    then fails. *)
Definition failingStream (taken : nat) : Conn :=
  {| impl := TCPConn; barred := None; inbox := [hello]; closing := None;
     outbox := []; writeFault := Some (taken, errBrokenPipe) |}.

Definition outcome_map (A B : Type) (f : A -> B) (o : outcome A) : outcome B :=
  match o with
  | Returned a => Returned (f a)
  | Panicked p => Panicked p
  | Blocked => Blocked
  | OutOfFuel => OutOfFuel
  end.

Definition he : list byte := list_byte_of_string "he".

Definition negativeBuffer : ReadOptions := {| BufferSize := -1; ChunkSize := 4 |}.

(** A buffer size of 2^62, larger than [maxAlloc], with a negative chunk
    size. *)
Definition hugeBufferBadChunk : ReadOptions :=
  {| BufferSize := 4611686018427387904; ChunkSize := -1 |}.

Definition errListenerClosed : error := errors.New "use of closed network connection".

(** A chunk size of zero. *)
Definition zeroChunk : ReadOptions := {| BufferSize := 8; ChunkSize := 0 |}.

(** The connection once its read deadline has passed. *)
Definition pastDeadline (c : Conn) : Conn :=
  setBarred c (Some (deadlineOver errTimeout)).

Definition errClosed : error := errors.New "use of closed network connection".

(** The connection once it was closed on this side: reads and writes
    fail. *)
Definition closedConn (c : Conn) : Conn :=
  {| impl := impl c; barred := Some (closedHere errClosed); inbox := inbox c;
     closing := closing c; outbox := outbox c;
     writeFault := Some (O, errClosed) |}.

(** One end of a pipe on which the given pieces wait. *)
Definition pipeWith (segments : list (list byte))
    (fin : option (list byte * error)) : Conn :=
  {| impl := pipeConn; barred := None; inbox := segments; closing := fin;
     outbox := []; writeFault := None |}.

(* ================================================================== *)
(** * Properties *)

(** ** Allocation *)

Lemma make_cap_in_range (n : Z) :
  0 <= n -> n <= maxAlloc -> make_cap n = Returned [].
Proof.
  intros Hlo Hhi. unfold make_cap.
  destruct (Z.ltb_spec n 0); [lia|]. destruct (Z.ltb_spec maxAlloc n); [lia|].
  reflexivity.
Qed.

Lemma make_len_in_range (n : Z) :
  0 <= n -> n <= maxAlloc -> make_len n = Returned (repeat x00 (Z.to_nat n)).
Proof.
  intros Hlo Hhi. unfold make_len.
  destruct (Z.ltb_spec n 0); [lia|]. destruct (Z.ltb_spec maxAlloc n); [lia|].
  reflexivity.
Qed.

Lemma make_cap_out_of_range (n : Z) :
  n < 0 \/ maxAlloc < n -> make_cap n = Panicked makesliceCapOutOfRange.
Proof.
  intros Hout. unfold make_cap.
  destruct (Z.ltb_spec n 0); [reflexivity|].
  destruct (Z.ltb_spec maxAlloc n); [reflexivity|lia].
Qed.

Lemma make_len_out_of_range (n : Z) :
  n < 0 \/ maxAlloc < n -> make_len n = Panicked makesliceLenOutOfRange.
Proof.
  intros Hout. unfold make_len.
  destruct (Z.ltb_spec n 0); [reflexivity|].
  destruct (Z.ltb_spec maxAlloc n); [reflexivity|lia].
Qed.

Lemma make_cap_returns (n : Z) (b : list byte) :
  make_cap n = Returned b -> b = [] /\ 0 <= n <= maxAlloc.
Proof.
  unfold make_cap.
  destruct (Z.ltb_spec n 0); [discriminate|].
  destruct (Z.ltb_spec maxAlloc n); [discriminate|].
  intros E. inversion E. split; [reflexivity|lia].
Qed.

Lemma make_len_returns (n : Z) (b : list byte) :
  make_len n = Returned b ->
  b = repeat x00 (Z.to_nat n) /\ 0 <= n <= maxAlloc.
Proof.
  unfold make_len.
  destruct (Z.ltb_spec n 0); [discriminate|].
  destruct (Z.ltb_spec maxAlloc n); [discriminate|].
  intros E. inversion E. split; [reflexivity|lia].
Qed.

(** ** The loop of Read *)

Lemma setInbox_same (c : Conn) : setInbox c (inbox c) = c.
Proof. destruct c; reflexivity. Qed.

Lemma skipn_shorter (A : Type) (k : nat) (l : list A) :
  (List.length (skipn (S k) l) < S (List.length l))%nat.
Proof. rewrite length_skipn. lia. Qed.

Lemma skipn_nonempty_shorter (A : Type) (k : nat) (l : list A) (x : A) (r : list A) :
  skipn (S k) l = x :: r -> (S (List.length r) < List.length l)%nat.
Proof.
  intros E.
  assert (L : List.length (skipn (S k) l) = S (List.length r)) by (rewrite E; reflexivity).
  rewrite length_skipn in L. lia.
Qed.

(** More fuel does not change what the loop arrived at. *)
Lemma readLoop_more_fuel (fuel : nat) :
  forall (extra : nat) (c : Conn) (size : nat) (buffer : list byte),
    readLoop fuel c size buffer <> OutOfFuel ->
    readLoop (fuel + extra) c size buffer = readLoop fuel c size buffer.
Proof.
  induction fuel as [|fuel IH]; intros extra c size buffer Hdone.
  - exfalso. apply Hdone. reflexivity.
  - cbn [readLoop Nat.add] in *.
    destruct (conn_Read c size) as [[[chunk [err|]] c']|]; try reflexivity.
    apply IH. exact Hdone.
Qed.

(** ** One read *)

Lemma firstn_whole (A : Type) (size : nat) (piece : list A) :
  skipn size piece = [] -> firstn size piece = piece.
Proof.
  intros Hskip. rewrite <- (firstn_skipn size piece) at 2.
  rewrite Hskip, app_nil_r. reflexivity.
Qed.

(** A read that asks for bytes on a connection that nothing bars looks
    for data. *)
Lemma conn_Read_open (c : Conn) (k : nat) :
  barred c = None -> conn_Read c (S k) = takeData c (S k).
Proof.
  intros Hbar. unfold conn_Read. rewrite Hbar. destruct (impl c); reflexivity.
Qed.

(** A read into an empty slice on a socket that is not closed on this
    side returns at once with nothing. *)
Lemma conn_Read_empty_slice (c : Conn) :
  impl c <> pipeConn ->
  (forall e : error, barred c <> Some (closedHere e)) ->
  conn_Read c 0 = Some ([], None, c).
Proof.
  intros Hk Hopen. unfold conn_Read.
  destruct (barred c) as [[e|e]|].
  - exfalso. apply (Hopen e). reflexivity.
  - destruct (impl c); try reflexivity. congruence.
  - destruct (impl c); try reflexivity. congruence.
Qed.

(** A read on a barred socket that asks for bytes, and every read on a
    connection closed on this side, fails at once and takes nothing. *)
Lemma conn_Read_barred_socket (c : Conn) (k : nat) (b : readBar) :
  barred c = Some b ->
  impl c <> pipeConn ->
  conn_Read c (S k) = Some ([], Some (barError b), c).
Proof.
  intros Hbar Hk. unfold conn_Read. rewrite Hbar.
  destruct b as [e|e]; [reflexivity|].
  destruct (impl c); try reflexivity. congruence.
Qed.

Lemma takeData_frame (c : Conn) (size : nat) (chunk : list byte)
    (err : option error) (c' : Conn) :
  takeData c size = Some (chunk, err, c') ->
  impl c' = impl c /\ closing c' = closing c /\
  outbox c' = outbox c /\ writeFault c' = writeFault c /\ barred c' = barred c.
Proof.
  unfold takeData. destruct (inbox c) as [|piece rest].
  - destruct (closing c) as [[last e]|] eqn:F; [|discriminate].
    intros E. inversion E. subst. repeat split; assumption.
  - destruct (skipn size piece); [|destruct (impl c) eqn:K];
      intros E; inversion E; subst; cbn; rewrite ?K; repeat split.
Qed.

Lemma conn_Read_frame_all (c : Conn) (size : nat) (chunk : list byte)
    (err : option error) (c' : Conn) :
  conn_Read c size = Some (chunk, err, c') ->
  impl c' = impl c /\ closing c' = closing c /\
  outbox c' = outbox c /\ writeFault c' = writeFault c /\ barred c' = barred c.
Proof.
  unfold conn_Read.
  destruct (barred c) as [[e|e]|] eqn:B.
  - intros E. inversion E. subst. repeat split. exact B.
  - destruct (impl c) eqn:K.
    + destruct size; intros E; inversion E; subst; repeat split; assumption.
    + destruct size; intros E; inversion E; subst; repeat split; assumption.
    + destruct (peerGone c).
      * intros E. apply takeData_frame in E. rewrite B, K in E. exact E.
      * intros E. inversion E. subst. repeat split; assumption.
  - destruct (impl c) eqn:K.
    + destruct size.
      * intros E. inversion E. subst. repeat split; assumption.
      * intros E. apply takeData_frame in E. rewrite B, K in E. exact E.
    + destruct size.
      * intros E. inversion E. subst. repeat split; assumption.
      * intros E. apply takeData_frame in E. rewrite B, K in E. exact E.
    + intros E. apply takeData_frame in E. rewrite B, K in E. exact E.
Qed.

(** A read that reports an error leaves the connection as it was. *)
Lemma conn_Read_error_keeps (c : Conn) (size : nat) (chunk : list byte)
    (e : error) (c' : Conn) :
  conn_Read c size = Some (chunk, Some e, c') -> c' = c.
Proof.
  assert (Ht : takeData c size = Some (chunk, Some e, c') -> c' = c).
  { unfold takeData. destruct (inbox c) as [|piece rest].
    - destruct (closing c) as [[last e']|]; [|discriminate].
      intros E. inversion E. reflexivity.
    - destruct (skipn size piece); [|destruct (impl c)]; discriminate. }
  unfold conn_Read.
  destruct (barred c) as [[e'|e']|].
  - intros E. inversion E. reflexivity.
  - destruct (impl c).
    + destruct size; intros E; inversion E; reflexivity.
    + destruct size; intros E; inversion E; reflexivity.
    + destruct (peerGone c); [exact Ht|]. intros E. inversion E. reflexivity.
  - destruct (impl c).
    + destruct size; [discriminate|exact Ht].
    + destruct size; [discriminate|exact Ht].
    + exact Ht.
Qed.


(** What a read takes is the front of what was waiting, except on a UDP
    connection. *)
Lemma conn_Read_takes (c : Conn) (size : nat) (chunk : list byte) (c' : Conn) :
  impl c <> UDPConn ->
  conn_Read c size = Some (chunk, None, c') ->
  List.concat (inbox c) = chunk ++ List.concat (inbox c').
Proof.
  intros Hk.
  assert (Ht : takeData c size = Some (chunk, None, c') ->
               List.concat (inbox c) = chunk ++ List.concat (inbox c')).
  { unfold takeData. destruct (inbox c) as [|piece rest].
    - destruct (closing c) as [[last e']|]; discriminate.
    - destruct (skipn size piece) as [|x r] eqn:Hskip.
      + intros E. inversion E. subst. cbn [inbox setInbox List.concat].
        rewrite (@firstn_whole _ _ _ Hskip). reflexivity.
      + destruct (impl c); try congruence;
          intros E; inversion E; subst; cbn [inbox setInbox List.concat];
          rewrite <- Hskip, app_assoc, firstn_skipn; reflexivity. }
  unfold conn_Read.
  destruct (barred c) as [[e'|e']|].
  - discriminate.
  - destruct (impl c).
    + destruct size; [|discriminate]. intros E. inversion E. reflexivity.
    + destruct size; [|discriminate]. intros E. inversion E. reflexivity.
    + destruct (peerGone c); [exact Ht|discriminate].
  - destruct (impl c).
    + destruct size; [|exact Ht]. intros E. inversion E. reflexivity.
    + destruct size; [|exact Ht]. intros E. inversion E. reflexivity.
    + exact Ht.
Qed.

(** ** The loop of Read, continued *)

(** With an empty chunk every read on a socket that is not closed on
    this side returns at once with nothing, and the loop never ends. *)
Lemma readLoop_empty_chunk_spins (fuel : nat) :
  forall (c : Conn) (buffer : list byte),
    impl c <> pipeConn ->
    (forall e : error, barred c <> Some (closedHere e)) ->
    readLoop fuel c 0 buffer = OutOfFuel.
Proof.
  induction fuel as [|fuel IH]; intros c buffer Hk Hopen; [reflexivity|].
  cbn [readLoop]. rewrite conn_Read_empty_slice by assumption.
  apply IH; assumption.
Qed.

Lemma gathered_stream (kind : connImpl) (size : nat) (segments : list (list byte)) :
  kind <> UDPConn -> gathered kind size segments = List.concat segments.
Proof. destruct kind; [reflexivity|congruence|reflexivity]. Qed.

(** One read of a piece: what it takes, followed by what is gathered
    from what it leaves. *)
Lemma gathered_whole_piece (kind : connImpl) (size : nat) (piece : list byte)
    (rest : list (list byte)) :
  skipn size piece = [] ->
  gathered kind size (piece :: rest) = firstn size piece ++ gathered kind size rest.
Proof.
  intros Hskip. pose proof (@firstn_whole _ _ _ Hskip) as Hw.
  destruct kind; cbn [gathered map List.concat]; rewrite Hw; reflexivity.
Qed.

Lemma gathered_datagram (size : nat) (piece : list byte) (rest : list (list byte)) :
  gathered UDPConn size (piece :: rest)
  = firstn size piece ++ gathered UDPConn size rest.
Proof. reflexivity. Qed.

Lemma gathered_part_of_piece (kind : connImpl) (size : nat) (piece : list byte)
    (rest : list (list byte)) :
  kind <> UDPConn ->
  gathered kind size (piece :: rest)
  = firstn size piece ++ gathered kind size (skipn size piece :: rest).
Proof.
  intros Hk. rewrite !gathered_stream by exact Hk. cbn [List.concat].
  rewrite app_assoc, firstn_skipn. reflexivity.
Qed.

(** On a connection that nothing bars, with a chunk that is not empty
    and enough fuel, the loop empties the inbox and is left by what lies
    behind it: by [return] for an
    end-of-stream, by [break] with the bytes gathered for another
    error. *)
Lemma readLoop_drains (fuel : nat) :
  forall (segments : list (list byte)) (c : Conn) (size : nat)
         (buffer last : list byte) (e : error),
    barred c = None ->
    inbox c = segments ->
    closing c = Some (last, e) ->
    (0 < size)%nat ->
    (inboxCost segments < fuel)%nat ->
    readLoop fuel c size buffer =
    Returned (if errors.Is e io.EOF
              then returnEOF (Z.of_nat (List.length (firstn size last))) e
              else breakWith (buffer ++ gathered (impl c) size segments),
              setInbox c []).
Proof.
  induction fuel as [|fuel IH];
    intros segments c size buffer last e Hbar Hin Hfin Hsize Hfuel.
  - lia.
  - destruct size as [|k]; [lia|].
    cbn [readLoop]. rewrite conn_Read_open by exact Hbar. unfold takeData.
    rewrite Hin.
    destruct segments as [|piece rest].
    + rewrite Hfin.
      assert (Hc : setInbox c [] = c) by (rewrite <- Hin; apply setInbox_same).
      rewrite Hc.
      destruct (errors.Is e io.EOF); [reflexivity|].
      replace (gathered (impl c) (S k) []) with (@nil byte)
        by (destruct (impl c); reflexivity).
      rewrite app_nil_r. reflexivity.
    + cbn [inboxCost] in Hfuel.
      destruct (skipn (S k) piece) as [|x r] eqn:Hskip.
      * rewrite (IH rest (setInbox c rest) (S k) _ last e);
          try reflexivity; try assumption; try lia.
        cbn [impl setInbox]. rewrite (@gathered_whole_piece (impl c) _ _ rest Hskip).
        rewrite <- app_assoc. reflexivity.
      * destruct (impl c) eqn:K.
        -- rewrite (IH ((x :: r) :: rest) (setInbox c ((x :: r) :: rest)) (S k) _ last e);
             try reflexivity; try assumption.
           ++ cbn [impl setInbox]. rewrite K.
              rewrite (@gathered_part_of_piece TCPConn (S k) piece rest)
                by discriminate.
              rewrite Hskip, <- app_assoc. reflexivity.
           ++ cbn [inboxCost]. apply skipn_nonempty_shorter in Hskip.
              cbn [List.length]. lia.
        -- rewrite (IH rest (setInbox c rest) (S k) _ last e);
             try reflexivity; try assumption; try lia.
           cbn [impl setInbox]. rewrite K, gathered_datagram, <- app_assoc.
           reflexivity.
        -- rewrite (IH ((x :: r) :: rest) (setInbox c ((x :: r) :: rest)) (S k) _ last e);
             try reflexivity; try assumption.
           ++ cbn [impl setInbox]. rewrite K.
              rewrite (@gathered_part_of_piece pipeConn (S k) piece rest)
                by discriminate.
              rewrite Hskip, <- app_assoc. reflexivity.
           ++ cbn [inboxCost]. apply skipn_nonempty_shorter in Hskip.
              cbn [List.length]. lia.
Qed.

(** ** Read, once the options are settled *)

Section ReadFacts.

Context {T : Type} `{Convertable T}.

(** What [Read] does on a connection that nothing bars and whose inbox
    is followed by an error, for a chunk that is not empty and enough
    fuel. *)
Lemma Read_drains (fuel : nat) (tc : TypedConnection T) (old : T)
    (opts : option (list ReadOptions)) (ro : ReadOptions)
    (last : list byte) (e : error) :
  variadicReadOpts opts = Returned ro ->
  0 <= BufferSize ro <= maxAlloc ->
  0 < ChunkSize ro <= maxAlloc ->
  barred (conn tc) = None ->
  closing (conn tc) = Some (last, e) ->
  (inboxCost (inbox (conn tc)) < fuel)%nat ->
  Read fuel tc (Some old) opts =
  if errors.Is e io.EOF
  then Returned {| bytesRead :=
                     Z.of_nat (List.length (firstn (Z.to_nat (ChunkSize ro)) last));
                   readErr := Some e;
                   dataAfter := Some old;
                   connRead := setInbox (conn tc) [] |}
  else
    let buffer :=
      gathered (impl (conn tc)) (Z.to_nat (ChunkSize ro)) (inbox (conn tc)) in
    match Unmarshal zeroValue buffer with
    | (_, Some cause) =>
        Returned {| bytesRead := 0;
                    readErr := Some (joinError
                      [errors.New "unmarshal of data returned an error"; cause]);
                    dataAfter := Some old;
                    connRead := setInbox (conn tc) [] |}
    | (newData, None) =>
        Returned {| bytesRead := Z.of_nat (List.length buffer);
                    readErr := None;
                    dataAfter := Some newData;
                    connRead := setInbox (conn tc) [] |}
    end.
Proof.
  intros Hopts Hbuf Hchunk Hbar Hfin Hfuel. cbv zeta.
  unfold Read. rewrite Hopts. cbn [bind].
  rewrite make_cap_in_range by lia. cbn [bind].
  rewrite make_len_in_range by lia. cbn [bind]. rewrite repeat_length.
  rewrite (readLoop_drains (segments := inbox (conn tc)) (conn tc) [] (last := last) (e := e));
    try reflexivity; try assumption; try lia.
  cbn [bind app].
  destruct (errors.Is e io.EOF); [reflexivity|].
  destruct (Unmarshal zeroValue
              (gathered (impl (conn tc)) (Z.to_nat (ChunkSize ro)) (inbox (conn tc))))
    as [newData [cause|]]; reflexivity.
Qed.

End ReadFacts.

(* ================================================================== *)
(** ** Round trip (C1) *)

(** C1, as stated, at a concrete input: the peer writes "hello" and closes
    the stream.  [Read] on the other end returns zero bytes with [io.EOF]
    and leaves the destination as it was; it does not return five bytes,
    no error and "hello". *)
Lemma Read_after_Write_then_EOF_returns_EOF :
  let sent := Write (NewTypedConnection StringPayload (idle TCPConn) ConnectionTypeTCP)
                    (stringPayload "hello") in
  let arrived := deliver (connAfter sent) (idle TCPConn) peerClosed in
  count sent = 5 /\ failure sent = None /\
  inbox arrived = [hello] /\
  Read 16 (NewTypedConnection StringPayload arrived ConnectionTypeTCP)
       (Some (stringPayload "")) None
  = Returned {| bytesRead := 0; readErr := Some io.EOF;
                dataAfter := Some (stringPayload "");
                connRead := setInbox arrived [] |} /\
  (forall c : Conn,
     Read 16 (NewTypedConnection StringPayload arrived ConnectionTypeTCP)
          (Some (stringPayload "")) None
     <> Returned {| bytesRead := 5; readErr := None;
                    dataAfter := Some (stringPayload "hello");
                    connRead := c |}).
Proof.
  cbv zeta. split; [reflexivity|]. split; [reflexivity|]. split; [reflexivity|].
  split; [reflexivity|].
  intros c. vm_compute. discriminate.
Qed.

(** C1, amended: for a payload value [v] that marshals to [payload] and
    that [payload] unmarshals to, when the peer writes [v] on a fresh
    stream connection, the receiving end is open and no read deadline of
    it has passed when [Read] is called ([barred receiver = None]), and
    the read that follows the payload, made once the whole payload has
    been read, fails with an error, with a buffer size in [0, maxAlloc]
    and a chunk size in (0, maxAlloc]: [Write] reports the payload's byte
    count; when the error is not an end-of-stream (a deadline that passes
    while [Read] waits, say), [Read] returns that count with no error and
    stores [v] in the destination; when it is an end-of-stream, [Read]
    returns the byte count of that last read with the error and leaves
    the destination as it was. *)
Theorem Read_after_Write_round_trip
    (T : Type) `{Convertable T} (v old : T) (payload : list byte)
    (sender : TypedConnection T) (receiver : Conn) (ct : ConnectionType)
    (last : list byte) (e : error)
    (opts : option (list ReadOptions)) (ro : ReadOptions) (fuel : nat) :
  Marshal v = (payload, None) ->
  Unmarshal zeroValue payload = (v, None) ->
  writeFault (conn sender) = None ->
  outbox (conn sender) = [] ->
  impl receiver = TCPConn ->
  barred receiver = None ->
  inbox receiver = [] ->
  variadicReadOpts opts = Returned ro ->
  0 <= BufferSize ro <= maxAlloc ->
  0 < ChunkSize ro <= maxAlloc ->
  (S (List.length payload) < fuel)%nat ->
  let sent := Write sender v in
  let arrived := deliver (connAfter sent) receiver (Some (last, e)) in
  count sent = Z.of_nat (List.length payload) /\
  failure sent = None /\
  Read fuel (NewTypedConnection T arrived ct) (Some old) opts
  = if errors.Is e io.EOF
    then Returned {| bytesRead :=
                       Z.of_nat (List.length (firstn (Z.to_nat (ChunkSize ro)) last));
                     readErr := Some e;
                     dataAfter := Some old;
                     connRead := setInbox arrived [] |}
    else Returned {| bytesRead := Z.of_nat (List.length payload);
                     readErr := None;
                     dataAfter := Some v;
                     connRead := setInbox arrived [] |}.
Proof.
  intros Hm Hu Hwf Hout Hkind Hbar Hin Hopts Hbuf Hchunk Hfuel sent arrived.
  assert (Hsent : sent = {| count := Z.of_nat (List.length payload);
                            failure := None;
                            connAfter := setOutbox (conn sender) [payload] |}).
  { unfold sent, Write. rewrite Hm. unfold conn_Write. rewrite Hwf, Hout. reflexivity. }
  assert (Harr : inbox arrived = [payload]).
  { unfold arrived. rewrite Hsent. cbn. rewrite Hin. reflexivity. }
  rewrite Hsent at 1 2. cbn [count failure].
  split; [reflexivity|]. split; [reflexivity|].
  assert (Hstream : impl arrived = TCPConn) by exact Hkind.
  rewrite (Read_drains (NewTypedConnection T arrived ct) old opts (last := last) (e := e) Hopts Hbuf Hchunk).
  - destruct (errors.Is e io.EOF); [reflexivity|].
    cbv zeta. cbn [conn NewTypedConnection]. rewrite Harr, Hstream.
    cbn [gathered List.concat]. rewrite app_nil_r, Hu. reflexivity.
  - exact Hbar.
  - reflexivity.
  - cbn [conn NewTypedConnection]. rewrite Harr. cbn [inboxCost]. lia.
Qed.

Lemma Read_after_Write_round_trip_witness :
  let sent := Write (NewTypedConnection StringPayload (idle TCPConn) ConnectionTypeTCP)
                    (stringPayload "hello") in
  let arrived := deliver (connAfter sent) (idle TCPConn) deadlinePassed in
  count sent = 5 /\
  failure sent = None /\
  Read 16 (NewTypedConnection StringPayload arrived ConnectionTypeTCP)
       (Some (stringPayload "")) None
  = Returned {| bytesRead := 5; readErr := None;
                dataAfter := Some (stringPayload "hello");
                connRead := setInbox arrived [] |}.
Proof.
  apply (@Read_after_Write_round_trip StringPayload _
           (stringPayload "hello") (stringPayload "") hello
           (NewTypedConnection StringPayload (idle TCPConn) ConnectionTypeTCP)
           (idle TCPConn) ConnectionTypeTCP [] errTimeout None defaultReadOptions 16%nat);
    try reflexivity; try (unfold maxAlloc; simpl; lia).
Defined.

(* ================================================================== *)
(** ** End of stream (C2) *)

(** C2, as stated, at a concrete input: five bytes arrive in two pieces
    and the peer closes.  Both pieces are read from the connection, and
    [Read] returns zero with [io.EOF], not the five bytes it gathered. *)
Lemma Read_at_EOF_forgets_the_gathered_bytes :
  let c := streamWith [hel; lo] peerClosed in
  let r := Read 16 (NewTypedConnection StringPayload c ConnectionTypeTCP)
                (Some (stringPayload "")) None in
  r = Returned {| bytesRead := 0; readErr := Some io.EOF;
                  dataAfter := Some (stringPayload "");
                  connRead := setInbox c [] |} /\
  readLoop 3 c 256 [] = readLoop 1 (setInbox c []) 256 (hel ++ lo) /\
  List.length (List.concat (inbox c)) = 5%nat /\
  (forall how : received StringPayload,
     r = Returned how ->
     bytesRead how <> Z.of_nat (List.length (List.concat (inbox c)))).
Proof.
  cbv zeta. split; [reflexivity|]. split; [reflexivity|]. split; [reflexivity|].
  intros how E. vm_compute in E. inversion E; subst how. vm_compute. discriminate.
Qed.

(** C2, amended: on a connection that is open on this side and whose
    read deadline has not passed, when the read that finds the inbox
    empty reports an end-of-stream, [Read], with a buffer size in
    [0, maxAlloc] and a chunk size in (0, maxAlloc], returns the byte count of that one read call
    (not the bytes gathered by the calls before it) paired with the
    end-of-stream error, and the destination keeps its value. *)
Theorem Read_at_EOF_returns_last_read_count
    (T : Type) `{Convertable T} (fuel : nat) (tc : TypedConnection T) (old : T)
    (opts : option (list ReadOptions)) (ro : ReadOptions)
    (last : list byte) (e : error) :
  variadicReadOpts opts = Returned ro ->
  0 <= BufferSize ro <= maxAlloc ->
  0 < ChunkSize ro <= maxAlloc ->
  barred (conn tc) = None ->
  closing (conn tc) = Some (last, e) ->
  errors.Is e io.EOF = true ->
  (inboxCost (inbox (conn tc)) < fuel)%nat ->
  conn_Read (setInbox (conn tc) []) (Z.to_nat (ChunkSize ro))
  = Some (firstn (Z.to_nat (ChunkSize ro)) last, Some e, setInbox (conn tc) []) /\
  Read fuel tc (Some old) opts
  = Returned {| bytesRead :=
                  Z.of_nat (List.length (firstn (Z.to_nat (ChunkSize ro)) last));
                readErr := Some e;
                dataAfter := Some old;
                connRead := setInbox (conn tc) [] |}.
Proof.
  intros Hopts Hbuf Hchunk Hbar Hfin Heof Hfuel. split.
  - destruct (Z.to_nat (ChunkSize ro)) eqn:E; [lia|].
    rewrite conn_Read_open by exact Hbar.
    unfold takeData. cbn [inbox setInbox closing]. rewrite Hfin. reflexivity.
  - rewrite (Read_drains tc old opts (last := last) (e := e)
               Hopts Hbuf Hchunk Hbar Hfin Hfuel).
    rewrite Heof. reflexivity.
Qed.

Lemma Read_at_EOF_returns_last_read_count_witness :
  Read 16 (NewTypedConnection StringPayload (streamWith [hel] (Some (lo, io.EOF)))
                              ConnectionTypeTCP)
       (Some (stringPayload "")) None
  = Returned {| bytesRead := 2; readErr := Some io.EOF;
                dataAfter := Some (stringPayload "");
                connRead := streamWith [] (Some (lo, io.EOF)) |}.
Proof.
  apply (@Read_at_EOF_returns_last_read_count StringPayload _ 16%nat
           (NewTypedConnection StringPayload (streamWith [hel] (Some (lo, io.EOF)))
                               ConnectionTypeTCP)
           (stringPayload "") None defaultReadOptions lo io.EOF);
    try reflexivity; try (unfold maxAlloc; simpl; lia).
Defined.

(* ================================================================== *)
(** ** ReadFrom on a TCP connection (C3, C4) *)

Section ReadFromFacts.

Context {T : Type} `{Convertable T}.

(** On a TCP connection that takes the write, [ReadFrom] hands its
    zeroed buffer to the connection, reads nothing, and unmarshals the
    zero bytes. *)
Lemma ReadFrom_TCP_unmarshals_zero_bytes (ttc : TCPTypedConnection T) (old : T)
    (opts : option (list ReadOptions)) (ro : ReadOptions) :
  variadicReadOpts opts = Returned ro ->
  impl (conn (embedded ttc)) = TCPConn ->
  writeFault (conn (embedded ttc)) = None ->
  0 < BufferSize ro <= maxAlloc ->
  let c := conn (embedded ttc) in
  let zeros := repeat x00 (Z.to_nat (BufferSize ro)) in
  ReadFrom ttc (Some old) opts =
  match Unmarshal zeroValue zeros with
  | (_, Some _) =>
      Returned {| bytesRead := BufferSize ro;
                  readErr := Some (joinError
                    [fmt.Errorf_s "could not unmarshal incoming buffer into "
                                  pointerTypeName]);
                  dataAfter := Some old;
                  connRead := setOutbox c (outbox c ++ [zeros]) |}
  | (newData, None) =>
      Returned {| bytesRead := BufferSize ro;
                  readErr := None;
                  dataAfter := Some newData;
                  connRead := setOutbox c (outbox c ++ [zeros]) |}
  end.
Proof.
  intros Hopts Htcp Hwf Hbuf c zeros. subst c.
  unfold ReadFrom. rewrite Hopts. cbn [bind]. rewrite Htcp.
  rewrite make_len_in_range by lia.
  cbn [bind]. fold zeros.
  assert (Hz : exists b rest, zeros = b :: rest).
  { unfold zeros. destruct (Z.to_nat (BufferSize ro)) eqn:E; [lia|].
    cbn [repeat]. eauto. }
  destruct Hz as (b & rest & Hz).
  set (c := conn (embedded ttc)) in *.
  assert (Hsent : TCPConn_ReadFrom c zeros =
                  {| count := BufferSize ro; failure := None;
                     connAfter := setOutbox c (outbox c ++ [zeros]) |}).
  { unfold TCPConn_ReadFrom. rewrite Hz. rewrite <- Hz.
    unfold conn_Write. rewrite Hwf.
    unfold zeros at 1. rewrite repeat_length, Z2Nat.id by lia. reflexivity. }
  rewrite Hsent. cbn [count failure connAfter].
  assert (Hall : firstn (Z.to_nat (BufferSize ro)) zeros = zeros).
  { apply firstn_all2. unfold zeros. rewrite repeat_length. lia. }
  rewrite Hall.
  destruct (Unmarshal zeroValue zeros) as [newData [cause|]]; reflexivity.
Qed.

End ReadFromFacts.

(** C3, at a failing input: "hello" waits on a TCP connection.  [ReadFrom]
    with the default options leaves it unread, puts 4096 zero bytes on
    the wire towards the peer, and stores what the zero bytes unmarshal
    to; the destination does not receive "hello". *)
Theorem ReadFrom_receives_nothing :
  let c := streamWith [hello] None in
  let r := ReadFrom (NewTCPTypedConnection StringPayload c)
                    (Some (stringPayload "")) None in
  r = Returned {| bytesRead := 4096; readErr := None;
                  dataAfter := Some (stringPayload
                                       (string_of_list_byte (repeat x00 4096)));
                  connRead := setOutbox c [repeat x00 4096] |} /\
  inbox (setOutbox c [repeat x00 4096]) = [hello] /\
  (forall c' : Conn,
     r <> Returned {| bytesRead := 5; readErr := None;
                      dataAfter := Some (stringPayload "hello");
                      connRead := c' |}).
Proof.
  cbv zeta. split; [vm_compute; reflexivity|]. split; [reflexivity|].
  intros c' E.
  assert (N : bytesRead {| bytesRead := 5; readErr := None;
                           dataAfter := Some (stringPayload "hello");
                           connRead := c' |} = 4096).
  { assert (B : 0 < BufferSize defaultReadOptions <= maxAlloc)
      by (unfold maxAlloc; simpl; lia).
    pose proof (ReadFrom_TCP_unmarshals_zero_bytes
                  (NewTCPTypedConnection StringPayload (streamWith [hello] None))
                  (stringPayload "") None (ro := defaultReadOptions)
                  eq_refl eq_refl eq_refl B) as R.
    cbv zeta in R. rewrite R in E. cbn [Unmarshal StringPayload_Convertable] in E.
    inversion E. }
  discriminate N.
Qed.

(** C4, at a failing input: the zero bytes that [ReadFrom] unmarshals are
    refused by the payload type with [errBadToken].  The error returned
    joins one fresh error and nothing else: the cause is not in it.
    [Read] and [Write], at a payload that fails in the same way, return
    an error in which [errors.Is] finds the cause. *)
Theorem ReadFrom_unmarshal_error_drops_cause :
  let c := streamWith [hello] None in
  let described :=
    errors.New "could not unmarshal incoming buffer into *netutils.Token" in
  Unmarshal zeroValue (repeat x00 8) = (token "", Some errBadToken) /\
  ReadFrom (NewTCPTypedConnection Token c) (Some (token "old")) (Some [smallOptions])
  = Returned {| bytesRead := 8;
                readErr := Some (joinError [described]);
                dataAfter := Some (token "old");
                connRead := setOutbox c [repeat x00 8] |} /\
  errors.Is (joinError [described]) errBadToken = false /\
  (exists e : error,
     failure (Write (NewTypedConnection Token (idle TCPConn) ConnectionTypeTCP)
                    (token "")) = Some e /\
     errors.Is e errEmptyToken = true) /\
  (exists (e : error) (r : received Token),
     Read 16 (NewTypedConnection Token (streamWith [spoiled] deadlinePassed)
                                 ConnectionTypeTCP)
          (Some (token "old")) None = Returned r /\
     readErr r = Some e /\
     errors.Is e errBadToken = true).
Proof.
  cbv zeta. split; [reflexivity|]. split; [reflexivity|]. split; [reflexivity|].
  split.
  - eexists. split; reflexivity.
  - eexists. eexists. split; [reflexivity|]. split; reflexivity.
Qed.

(* ================================================================== *)
(** ** Failures of Read and Write (C5, C6, C7) *)

(** C5: [Read] with a nil destination returns zero bytes and the
    "data pointer was nil" error whatever the options and the fuel; the
    connection is left as it was and there is no cell to write to. *)
Theorem Read_nil_destination
    (T : Type) `{Convertable T} (fuel : nat) (tc : TypedConnection T)
    (opts : option (list ReadOptions)) :
  Read fuel tc None opts
  = Returned {| bytesRead := 0;
                readErr := Some (errors.New "data pointer was nil");
                dataAfter := None;
                connRead := conn tc |}.
Proof. reflexivity. Qed.



(** C7: when [Marshal] fails, [Write] returns zero bytes and the join of
    a fresh error with the cause, and the connection is left as it was:
    nothing is added to what the peer observes. *)
Theorem Write_marshal_failure_sends_nothing
    (T : Type) `{Convertable T} (tc : TypedConnection T) (v : T)
    (partial : list byte) (cause : error) :
  Marshal v = (partial, Some cause) ->
  Write tc v
  = {| count := 0;
       failure := Some (joinError
         [errors.New "could not marshal data to write"; cause]);
       connAfter := conn tc |} /\
  outbox (connAfter (Write tc v)) = outbox (conn tc).
Proof.
  intros Hm. unfold Write. rewrite Hm. split; reflexivity.
Qed.

Lemma Write_marshal_failure_sends_nothing_witness :
  Write (NewTypedConnection Token (idle TCPConn) ConnectionTypeTCP) (token "")
  = {| count := 0;
       failure := Some (joinError
         [errors.New "could not marshal data to write"; errEmptyToken]);
       connAfter := idle TCPConn |} /\
  outbox (connAfter (Write (NewTypedConnection Token (idle TCPConn) ConnectionTypeTCP)
                           (token ""))) = [].
Proof.
  apply (@Write_marshal_failure_sends_nothing Token _
           (NewTypedConnection Token (idle TCPConn) ConnectionTypeTCP)
           (token "") [] errEmptyToken).
  reflexivity.
Defined.

(* ================================================================== *)
(** ** ReadFrom on another kind of connection (C8) *)

(** When the options are left out or hold at least one entry, [ReadFrom]
    on a connection that is not a TCP connection returns zero bytes and
    the "invalid connection type" error, and leaves the connection and
    the destination as they were. *)
Lemma ReadFrom_on_other_connection
    (T : Type) `{Convertable T} (ttc : TCPTypedConnection T) (data : option T)
    (opts : option (list ReadOptions)) :
  impl (conn (embedded ttc)) <> TCPConn ->
  opts <> Some [] ->
  ReadFrom ttc data opts
  = Returned {| bytesRead := 0;
                readErr := Some invalidConnectionType;
                dataAfter := data;
                connRead := conn (embedded ttc) |}.
Proof.
  intros Hkind Hopts. unfold ReadFrom.
  destruct opts as [[|first others]|]; [congruence| |];
    cbn [variadicReadOpts bind];
    destruct (impl (conn (embedded ttc))); try congruence; reflexivity.
Qed.

(** C8, at a failing input: a wrapper over a datagram connection, called
    with an options slice that is empty and not nil.  [ReadFrom] panics on
    [opts[0]] before it looks at the connection, where the same call
    without options, or with one option set, returns zero bytes and the
    "invalid connection type" error. *)
Theorem ReadFrom_on_datagram_with_empty_options_panics :
  let ttc := NewTCPTypedConnection StringPayload (idle UDPConn) in
  let refused :=
    Returned {| bytesRead := 0; readErr := Some invalidConnectionType;
                dataAfter := Some (stringPayload "kept");
                connRead := idle UDPConn |} in
  impl (conn (embedded ttc)) <> TCPConn /\
  ReadFrom ttc (Some (stringPayload "kept")) None = refused /\
  ReadFrom ttc (Some (stringPayload "kept")) (Some [smallOptions]) = refused /\
  ReadFrom ttc (Some (stringPayload "kept")) (Some [])
  = Panicked (indexOutOfRange 0 0) /\
  ReadFrom ttc (Some (stringPayload "kept")) (Some []) <> refused.
Proof.
  cbv zeta. split; [discriminate|]. split; [reflexivity|]. split; [reflexivity|].
  split; [reflexivity|]. discriminate.
Qed.

(* ================================================================== *)
(** ** The options (C9, C10) *)

(** C9: with no options [Read] and [ReadFrom] do what they do with the
    one option set {4096, 256}, and with several option sets what they do
    with the first alone; for every connection, destination and fuel. *)
Theorem options_default_and_first_only (T : Type) `{Convertable T} :
  (forall (fuel : nat) (tc : TypedConnection T) (data : option T),
     Read fuel tc data None
     = Read fuel tc data (Some [{| BufferSize := 4096; ChunkSize := 256 |}])) /\
  (forall (ttc : TCPTypedConnection T) (data : option T),
     ReadFrom ttc data None
     = ReadFrom ttc data (Some [{| BufferSize := 4096; ChunkSize := 256 |}])) /\
  (forall (fuel : nat) (tc : TypedConnection T) (data : option T)
          (first : ReadOptions) (others : list ReadOptions),
     Read fuel tc data (Some (first :: others))
     = Read fuel tc data (Some [first])) /\
  (forall (ttc : TCPTypedConnection T) (data : option T)
          (first : ReadOptions) (others : list ReadOptions),
     ReadFrom ttc data (Some (first :: others))
     = ReadFrom ttc data (Some [first])).
Proof.
  split; [|split; [|split]]; intros; reflexivity.
Qed.

(** C10, as stated, at a concrete input: [Read] called with a nil
    destination and an options slice that is empty and not nil.  The nil
    check comes first: the call returns the "data pointer was nil" error,
    [opts[0]] is not evaluated and nothing panics. *)
Lemma Read_nil_destination_with_empty_options_returns :
  let tc := NewTypedConnection StringPayload (streamWith [hello] None)
                               ConnectionTypeTCP in
  variadicReadOpts (Some []) = Panicked (indexOutOfRange 0 0) /\
  Read 16 tc None (Some [])
  = Returned {| bytesRead := 0;
                readErr := Some (errors.New "data pointer was nil");
                dataAfter := None;
                connRead := conn tc |} /\
  Read 16 tc None (Some []) <> Panicked (indexOutOfRange 0 0).
Proof.
  cbv zeta. split; [reflexivity|]. split; [reflexivity|]. discriminate.
Qed.

(** C10, amended: the guard compares the options with nil and then takes
    [opts[0]].  With a slice that is empty and not nil the index is out
    of range: [ReadFrom] panics for every connection and destination, and
    [Read] for every destination that is not nil (with a nil destination
    it returns before the guard).  The guard yields options exactly when
    the slice is nil or holds an entry. *)
Theorem empty_options_slice_is_indexed_out_of_range (T : Type) `{Convertable T} :
  variadicReadOpts (Some []) = Panicked (indexOutOfRange 0 0) /\
  (forall (fuel : nat) (tc : TypedConnection T) (old : T),
     Read fuel tc (Some old) (Some []) = Panicked (indexOutOfRange 0 0)) /\
  (forall (ttc : TCPTypedConnection T) (data : option T),
     ReadFrom ttc data (Some []) = Panicked (indexOutOfRange 0 0)) /\
  (forall opts : option (list ReadOptions),
     (exists ro, variadicReadOpts opts = Returned ro) <->
     (opts = None \/ exists first others, opts = Some (first :: others))).
Proof.
  split; [reflexivity|]. split; [reflexivity|]. split; [reflexivity|].
  intros [[|first others]|]; cbn [variadicReadOpts]; split.
  - intros [ro E]. discriminate.
  - intros [E|(first & others & E)]; discriminate.
  - intros _. right. eauto.
  - intros _. eauto.
  - intros _. left. reflexivity.
  - intros _. eauto.
Qed.

(* ================================================================== *)
(** * Further properties *)

(** ** Error values *)

Lemma error_eqb_refl : forall e : error, error_eqb e e = true.
Proof.
  fix IH 1. intros [s| |l]; cbn.
  - apply String.eqb_refl.
  - reflexivity.
  - induction l as [|x l IHl]; [reflexivity|].
    rewrite (IH x). exact IHl.
Qed.

Lemma Is_refl (e : error) : errors.Is e e = true.
Proof. destruct e; cbn [errors.Is]; rewrite error_eqb_refl; reflexivity. Qed.

(** [errors.Is] finds in a joined error every error that was joined. *)
Lemma Is_joinError_member (l : list error) (e : error) :
  In e l -> errors.Is (joinError l) e = true.
Proof.
  intros Hin. cbn [errors.Is]. apply orb_true_iff. right.
  apply existsb_exists. exists e. split; [exact Hin|apply Is_refl].
Qed.

(** ** What a read looks at and what it leaves alone *)

Lemma conn_Read_frame (c : Conn) (size : nat) (chunk : list byte)
    (err : option error) (c' : Conn) :
  conn_Read c size = Some (chunk, err, c') ->
  impl c' = impl c /\ closing c' = closing c /\
  outbox c' = outbox c /\ writeFault c' = writeFault c.
Proof.
  intros E. apply conn_Read_frame_all in E. tauto.
Qed.

Lemma readLoop_frame (fuel : nat) :
  forall (c : Conn) (size : nat) (buffer : list byte) (how : loopExit) (c' : Conn),
    readLoop fuel c size buffer = Returned (how, c') ->
    impl c' = impl c /\ closing c' = closing c /\
    outbox c' = outbox c /\ writeFault c' = writeFault c.
Proof.
  induction fuel as [|fuel IH]; intros c size buffer how c' E; [discriminate|].
  cbn [readLoop] in E.
  destruct (conn_Read c size) as [[[chunk [err|]] d]|] eqn:R; [| |discriminate].
  - apply conn_Read_frame in R.
    destruct (errors.Is err io.EOF); inversion E; subst; exact R.
  - apply conn_Read_frame in R. apply IH in E.
    destruct R as (R1 & R2 & R3 & R4), E as (E1 & E2 & E3 & E4).
    repeat split; congruence.
Qed.

Lemma readLoop_barred (fuel : nat) :
  forall (c : Conn) (size : nat) (buffer : list byte) (how : loopExit) (c' : Conn),
    readLoop fuel c size buffer = Returned (how, c') ->
    barred c' = barred c.
Proof.
  induction fuel as [|fuel IH]; intros c size buffer how c' E; [discriminate|].
  cbn [readLoop] in E.
  destruct (conn_Read c size) as [[[chunk [err|]] d]|] eqn:R; [| |discriminate].
  - apply conn_Read_frame_all in R.
    destruct (errors.Is err io.EOF); inversion E; subst; tauto.
  - apply conn_Read_frame_all in R. apply IH in E.
    destruct R as (_ & _ & _ & _ & R). congruence.
Qed.

Lemma takeData_incoming (c1 c2 : Conn) (size : nat) :
  impl c1 = impl c2 ->
  barred c1 = barred c2 ->
  inbox c1 = inbox c2 ->
  closing c1 = closing c2 ->
  match takeData c1 size, takeData c2 size with
  | Some (k1, e1, d1), Some (k2, e2, d2) =>
      k1 = k2 /\ e1 = e2 /\ impl d1 = impl d2 /\ barred d1 = barred d2 /\
      inbox d1 = inbox d2 /\ closing d1 = closing d2
  | None, None => True
  | _, _ => False
  end.
Proof.
  intros Hk Hbar Hin Hfin. unfold takeData.
  rewrite <- Hk, <- Hin, <- Hfin. destruct (inbox c1) as [|piece rest] eqn:E1.
  - destruct (closing c1) as [[last e]|] eqn:F1; [|exact I].
    repeat split; congruence.
  - destruct (skipn size piece); [|destruct (impl c1) eqn:K1];
      repeat split; cbn; congruence.
Qed.

(** A read answers from the kind of connection, what bars it, the inbox
    and what lies behind it, and from nothing else. *)
Lemma conn_Read_incoming (c1 c2 : Conn) (size : nat) :
  impl c1 = impl c2 ->
  barred c1 = barred c2 ->
  inbox c1 = inbox c2 ->
  closing c1 = closing c2 ->
  match conn_Read c1 size, conn_Read c2 size with
  | Some (k1, e1, d1), Some (k2, e2, d2) =>
      k1 = k2 /\ e1 = e2 /\ impl d1 = impl d2 /\ barred d1 = barred d2 /\
      inbox d1 = inbox d2 /\ closing d1 = closing d2
  | None, None => True
  | _, _ => False
  end.
Proof.
  intros Hk Hbar Hin Hfin.
  pose proof (takeData_incoming c1 c2 size Hk Hbar Hin Hfin) as Ht.
  assert (Hgone : peerGone c1 = peerGone c2)
    by (unfold peerGone; rewrite Hin, Hfin; reflexivity).
  unfold conn_Read. rewrite <- Hk, <- Hbar, <- Hgone.
  destruct (barred c1) as [[e|e]|] eqn:B1.
  - repeat split; congruence.
  - destruct (impl c1) eqn:K1.
    + destruct size; repeat split; congruence.
    + destruct size; repeat split; congruence.
    + destruct (peerGone c1); [exact Ht|repeat split; congruence].
  - destruct (impl c1) eqn:K1.
    + destruct size; [repeat split; congruence|exact Ht].
    + destruct size; [repeat split; congruence|exact Ht].
    + exact Ht.
Qed.

Lemma readLoop_incoming (fuel : nat) :
  forall (c1 c2 : Conn) (size : nat) (buffer : list byte),
    impl c1 = impl c2 ->
    barred c1 = barred c2 ->
    inbox c1 = inbox c2 ->
    closing c1 = closing c2 ->
    outcome_map fst (readLoop fuel c1 size buffer)
    = outcome_map fst (readLoop fuel c2 size buffer).
Proof.
  induction fuel as [|fuel IH]; intros c1 c2 size buffer Hk Hbar Hin Hfin; [reflexivity|].
  cbn [readLoop].
  pose proof (conn_Read_incoming c1 c2 size Hk Hbar Hin Hfin) as R.
  destruct (conn_Read c1 size) as [[[k1 e1] d1]|];
    destruct (conn_Read c2 size) as [[[k2 e2] d2]|]; try contradiction; [|reflexivity].
  destruct R as (-> & -> & Hk' & Hbar' & Hin' & Hfin').
  destruct e2 as [err|].
  - destruct (errors.Is err io.EOF); reflexivity.
  - apply IH; assumption.
Qed.

Section IncomingOnly.

Context {T : Type} `{Convertable T}.

Lemma Read_observed_incoming (fuel : nat) (tc1 tc2 : TypedConnection T)
    (data : option T) (opts : option (list ReadOptions)) :
  impl (conn tc1) = impl (conn tc2) ->
  barred (conn tc1) = barred (conn tc2) ->
  inbox (conn tc1) = inbox (conn tc2) ->
  closing (conn tc1) = closing (conn tc2) ->
  observed (Read fuel tc1 data opts) = observed (Read fuel tc2 data opts).
Proof.
  intros Hk Hbar Hin Hfin. unfold Read. destruct data as [old|]; [|reflexivity].
  destruct (variadicReadOpts opts) as [ro| | |]; try reflexivity. cbn [bind].
  destruct (make_cap (BufferSize ro)) as [buffer| | |]; try reflexivity. cbn [bind].
  destruct (make_len (ChunkSize ro)) as [chunk| | |]; try reflexivity. cbn [bind].
  pose proof (readLoop_incoming fuel (conn tc1) (conn tc2) (List.length chunk) buffer
                Hk Hbar Hin Hfin) as L.
  destruct (readLoop fuel (conn tc1) (List.length chunk) buffer) as [[h1 d1]| | |];
    destruct (readLoop fuel (conn tc2) (List.length chunk) buffer) as [[h2 d2]| | |];
    try discriminate L; try reflexivity;
    cbn [outcome_map fst] in L; inversion L; subst; cbn [bind]; [|reflexivity].
  destruct h2 as [amount err|buffer']; [reflexivity|].
  destruct (Unmarshal zeroValue buffer') as [newData [e|]]; reflexivity.
Qed.

Lemma Read_frame (fuel : nat) (tc : TypedConnection T)
    (data : option T) (opts : option (list ReadOptions)) (r : received T) :
  Read fuel tc data opts = Returned r ->
  impl (connRead r) = impl (conn tc) /\ closing (connRead r) = closing (conn tc) /\
  outbox (connRead r) = outbox (conn tc) /\ writeFault (connRead r) = writeFault (conn tc).
Proof.
  unfold Read. destruct data as [old|].
  - destruct (variadicReadOpts opts) as [ro| | |]; try discriminate. cbn [bind].
    destruct (make_cap (BufferSize ro)) as [buffer| | |]; try discriminate. cbn [bind].
    destruct (make_len (ChunkSize ro)) as [chunk| | |]; try discriminate. cbn [bind].
    destruct (readLoop fuel (conn tc) (List.length chunk) buffer) as [[how d]| | |] eqn:L;
      try discriminate.
    apply readLoop_frame in L. cbn [bind].
    destruct how as [amount err|buffer'].
    + intros E. inversion E. subst r. exact L.
    + destruct (Unmarshal zeroValue buffer') as [newData [e|]];
        intros E; inversion E; subst r; exact L.
  - intros E. inversion E. subst r. repeat split.
Qed.

End IncomingOnly.

(* ================================================================== *)
(** ** Read: what decides its result *)

(** On a connection that nothing bars, that stays open and reports
    nothing, the loop reads what is there and then waits. *)
Lemma readLoop_blocks (fuel : nat) :
  forall (c : Conn) (size : nat) (buffer : list byte),
    barred c = None ->
    closing c = None ->
    (0 < size)%nat ->
    (inboxCost (inbox c) < fuel)%nat ->
    readLoop fuel c size buffer = Blocked.
Proof.
  induction fuel as [|fuel IH]; intros c size buffer Hbar Hfin Hsize Hfuel; [lia|].
  destruct size as [|k]; [lia|].
  cbn [readLoop]. rewrite conn_Read_open by exact Hbar. unfold takeData.
  destruct (inbox c) as [|piece rest] eqn:Hin.
  - rewrite Hfin. reflexivity.
  - cbn [inboxCost] in Hfuel.
    destruct (skipn (S k) piece) as [|x r] eqn:Hskip.
    + apply IH; cbn [barred closing inbox setInbox]; try assumption; lia.
    + apply skipn_nonempty_shorter in Hskip.
      destruct (impl c); apply IH;
        cbn [barred closing inbox setInbox inboxCost List.length];
        try assumption; lia.
Qed.



(** X2.  On a stream connection that is open on this side and whose read
    deadline has not passed, when the read that follows the data fails
    with an error that is not an end-of-stream, what [Read] returns
    and stores depends on the bytes that arrived and on nothing else: not
    on the pieces in which they arrived, not on the sizes as long as the
    buffer size is in [0, maxAlloc] and the chunk size in (0, maxAlloc],
    not on the error, and not on bytes handed over together with the
    error. *)
Theorem Read_result_depends_on_bytes_only
    (T : Type) `{Convertable T} (fuel1 fuel2 : nat) (tc1 tc2 : TypedConnection T)
    (old : T) (opts1 opts2 : option (list ReadOptions)) (ro1 ro2 : ReadOptions)
    (last1 last2 : list byte) (e1 e2 : error) :
  impl (conn tc1) = TCPConn ->
  impl (conn tc2) = TCPConn ->
  barred (conn tc1) = None ->
  barred (conn tc2) = None ->
  variadicReadOpts opts1 = Returned ro1 ->
  0 <= BufferSize ro1 <= maxAlloc -> 0 < ChunkSize ro1 <= maxAlloc ->
  variadicReadOpts opts2 = Returned ro2 ->
  0 <= BufferSize ro2 <= maxAlloc -> 0 < ChunkSize ro2 <= maxAlloc ->
  closing (conn tc1) = Some (last1, e1) -> errors.Is e1 io.EOF = false ->
  closing (conn tc2) = Some (last2, e2) -> errors.Is e2 io.EOF = false ->
  List.concat (inbox (conn tc1)) = List.concat (inbox (conn tc2)) ->
  (inboxCost (inbox (conn tc1)) < fuel1)%nat ->
  (inboxCost (inbox (conn tc2)) < fuel2)%nat ->
  (exists r1 : received T, Read fuel1 tc1 (Some old) opts1 = Returned r1) /\
  observed (Read fuel1 tc1 (Some old) opts1)
  = observed (Read fuel2 tc2 (Some old) opts2).
Proof.
  intros Hk1 Hk2 Hbar1 Hbar2 Ho1 Hb1 Hc1 Ho2 Hb2 Hc2 Hf1 Hn1 Hf2 Hn2 Hbytes
         Hfuel1 Hfuel2.
  rewrite (Read_drains tc1 old opts1 (last := last1) (e := e1)
             Ho1 Hb1 Hc1 Hbar1 Hf1 Hfuel1).
  rewrite (Read_drains tc2 old opts2 (last := last2) (e := e2)
             Ho2 Hb2 Hc2 Hbar2 Hf2 Hfuel2).
  rewrite Hn1, Hn2. cbv zeta. rewrite Hk1, Hk2. cbn [gathered]. rewrite <- Hbytes.
  destruct (Unmarshal zeroValue (List.concat (inbox (conn tc1)))) as [newData [cause|]];
    (split; [eexists; reflexivity|reflexivity]).
Qed.

Lemma Read_result_depends_on_bytes_only_witness :
  (exists r1 : received StringPayload,
     Read 16 (NewTypedConnection StringPayload (streamWith [hel; lo] deadlinePassed)
                                 ConnectionTypeTCP)
          (Some (stringPayload "")) None = Returned r1) /\
  observed (Read 16 (NewTypedConnection StringPayload
                       (streamWith [hel; lo] deadlinePassed) ConnectionTypeTCP)
                 (Some (stringPayload "")) None)
  = observed (Read 9 (NewTypedConnection StringPayload
                        (streamWith [hello] (Some (lo, errBrokenPipe))) ConnectionTypeUDP)
                  (Some (stringPayload "")) (Some [smallOptions])).
Proof.
  apply (@Read_result_depends_on_bytes_only StringPayload _ 16%nat 9%nat
           (NewTypedConnection StringPayload (streamWith [hel; lo] deadlinePassed)
                               ConnectionTypeTCP)
           (NewTypedConnection StringPayload
              (streamWith [hello] (Some (lo, errBrokenPipe))) ConnectionTypeUDP)
           (stringPayload "") None (Some [smallOptions])
           defaultReadOptions smallOptions [] lo errTimeout errBrokenPipe);
    try reflexivity; try (unfold maxAlloc; simpl; lia).
Defined.

(** X3.  [Read] does not return while the connection stays open: with a
    buffer size in [0, maxAlloc] and a chunk size in (0, maxAlloc], on a
    connection that is open on this side, whose read deadline has not
    passed, and on which the data is followed by neither an end-of-stream
    nor an error, it reads what is there and then waits for ever,
    whatever was received. *)
Theorem Read_waits_while_the_connection_is_open
    (T : Type) `{Convertable T} (fuel : nat) (tc : TypedConnection T) (old : T)
    (opts : option (list ReadOptions)) (ro : ReadOptions) :
  variadicReadOpts opts = Returned ro ->
  0 <= BufferSize ro <= maxAlloc ->
  0 < ChunkSize ro <= maxAlloc ->
  barred (conn tc) = None ->
  closing (conn tc) = None ->
  (inboxCost (inbox (conn tc)) < fuel)%nat ->
  Read fuel tc (Some old) opts = Blocked.
Proof.
  intros Hopts Hbuf Hchunk Hbar Hfin Hfuel.
  unfold Read. rewrite Hopts. cbn [bind].
  rewrite make_cap_in_range by lia. cbn [bind].
  rewrite make_len_in_range by lia.
  cbn [bind]. rewrite repeat_length.
  rewrite readLoop_blocks; try assumption; try lia. reflexivity.
Qed.

Lemma Read_waits_while_the_connection_is_open_witness :
  Read 16 (NewTypedConnection StringPayload (streamWith [hello] None) ConnectionTypeTCP)
       (Some (stringPayload "")) None
  = Blocked.
Proof.
  apply (@Read_waits_while_the_connection_is_open StringPayload _ 16%nat
           (NewTypedConnection StringPayload (streamWith [hello] None) ConnectionTypeTCP)
           (stringPayload "") None defaultReadOptions);
    try reflexivity; unfold maxAlloc; simpl; lia.
Defined.

(** X5.  Sizes that [make] refuses make [Read] panic before it reads: a
    buffer size that is negative or larger than [maxAlloc] in
    [make([]byte, 0, n)] (cap out of range), and otherwise a chunk size
    that is negative or larger than [maxAlloc] in [make([]byte, n)] (len
    out of range). *)
Theorem Read_refused_size_panics
    (T : Type) `{Convertable T} (fuel : nat) (tc : TypedConnection T) (old : T)
    (opts : option (list ReadOptions)) (ro : ReadOptions) :
  variadicReadOpts opts = Returned ro ->
  BufferSize ro < 0 \/ maxAlloc < BufferSize ro \/
  ChunkSize ro < 0 \/ maxAlloc < ChunkSize ro ->
  Read fuel tc (Some old) opts
  = Panicked (if (BufferSize ro <? 0) || (maxAlloc <? BufferSize ro)
              then makesliceCapOutOfRange
              else makesliceLenOutOfRange).
Proof.
  intros Hopts Hout.
  unfold Read. rewrite Hopts. cbn [bind].
  destruct ((BufferSize ro <? 0) || (maxAlloc <? BufferSize ro)) eqn:Hb.
  - rewrite make_cap_out_of_range; [reflexivity|].
    apply orb_true_iff in Hb. destruct Hb as [Hb|Hb]; [left|right];
      apply Z.ltb_lt; exact Hb.
  - apply orb_false_iff in Hb. destruct Hb as [Hlo Hhi].
    apply Z.ltb_ge in Hlo. apply Z.ltb_ge in Hhi.
    rewrite make_cap_in_range by assumption. cbn [bind].
    rewrite make_len_out_of_range; [reflexivity|lia].
Qed.

Lemma Read_refused_size_panics_witness :
  Read 16 (NewTypedConnection StringPayload (streamWith [hello] peerClosed)
                              ConnectionTypeTCP)
       (Some (stringPayload "")) (Some [hugeBufferBadChunk])
  = Panicked makesliceCapOutOfRange.
Proof.
  apply (@Read_refused_size_panics StringPayload _ 16%nat
           (NewTypedConnection StringPayload (streamWith [hello] peerClosed)
                               ConnectionTypeTCP)
           (stringPayload "") (Some [hugeBufferBadChunk]) hugeBufferBadChunk).
  - reflexivity.
  - right. left. unfold maxAlloc. simpl. lia.
Defined.

(** X6.  Each operation uses one of the two sizes.  [Read] does the same
    for any two buffer sizes in [0, maxAlloc] (the buffer starts empty
    and grows by [append]); [ReadFrom] does the same for any two chunk
    sizes. *)
Theorem each_operation_uses_one_size
    (T : Type) `{Convertable T} (fuel : nat) (tc : TypedConnection T)
    (ttc : TCPTypedConnection T) (data : option T)
    (buffer1 buffer2 chunk buffer chunk1 chunk2 : Z) :
  0 <= buffer1 <= maxAlloc ->
  0 <= buffer2 <= maxAlloc ->
  Read fuel tc data (Some [{| BufferSize := buffer1; ChunkSize := chunk |}])
  = Read fuel tc data (Some [{| BufferSize := buffer2; ChunkSize := chunk |}]) /\
  ReadFrom ttc data (Some [{| BufferSize := buffer; ChunkSize := chunk1 |}])
  = ReadFrom ttc data (Some [{| BufferSize := buffer; ChunkSize := chunk2 |}]).
Proof.
  intros H1 H2. split; [|reflexivity].
  unfold Read. destruct data as [old|]; [|reflexivity].
  cbn [variadicReadOpts bind BufferSize ChunkSize].
  rewrite !make_cap_in_range by lia. reflexivity.
Qed.

Lemma each_operation_uses_one_size_witness :
  Read 16 (NewTypedConnection StringPayload (streamWith [hello] deadlinePassed)
                              ConnectionTypeTCP)
       (Some (stringPayload ""))
       (Some [{| BufferSize := 0; ChunkSize := 2 |}])
  = Read 16 (NewTypedConnection StringPayload (streamWith [hello] deadlinePassed)
                                ConnectionTypeTCP)
         (Some (stringPayload ""))
         (Some [{| BufferSize := 4096; ChunkSize := 2 |}]) /\
  ReadFrom (NewTCPTypedConnection StringPayload (streamWith [hello] deadlinePassed))
           (Some (stringPayload ""))
           (Some [{| BufferSize := 8; ChunkSize := 1 |}])
  = ReadFrom (NewTCPTypedConnection StringPayload (streamWith [hello] deadlinePassed))
             (Some (stringPayload ""))
             (Some [{| BufferSize := 8; ChunkSize := -5 |}]).
Proof.
  apply (@each_operation_uses_one_size StringPayload _ 16%nat
           (NewTypedConnection StringPayload (streamWith [hello] deadlinePassed)
                               ConnectionTypeTCP)
           (NewTCPTypedConnection StringPayload (streamWith [hello] deadlinePassed))
           (Some (stringPayload "")) 0 4096 2 8 1 (-5)); unfold maxAlloc; lia.
Defined.

(** X7.  [Read] does not look at the sending side of the connection:
    with the sent buffers, the write fault and the connection-type tag
    replaced by any others, on the same kind of connection with the same
    receiving side (what bars a read, what arrived and what lies behind
    it), it returns the same values and stores the same value,
    for every fuel, destination and options (and panics, waits or keeps
    running alike). *)
Theorem Read_looks_at_the_receiving_side_only
    (T : Type) `{Convertable T} (fuel : nat) (c : Conn) (ct ct' : ConnectionType)
    (sent : list (list byte)) (fault : option (nat * error))
    (data : option T) (opts : option (list ReadOptions)) :
  observed (Read fuel (NewTypedConnection T (withSending c (impl c) sent fault) ct')
                 data opts)
  = observed (Read fuel (NewTypedConnection T c ct) data opts).
Proof.
  apply Read_observed_incoming; reflexivity.
Qed.

(** X8.  [Read] only consumes: whenever it returns, the sent buffers, the
    write fault, the dynamic type and what lies behind the inbox are what
    they were before the call. *)
Theorem Read_only_consumes
    (T : Type) `{Convertable T} (fuel : nat) (tc : TypedConnection T)
    (data : option T) (opts : option (list ReadOptions)) (r : received T) :
  Read fuel tc data opts = Returned r ->
  outbox (connRead r) = outbox (conn tc) /\
  writeFault (connRead r) = writeFault (conn tc) /\
  impl (connRead r) = impl (conn tc) /\
  closing (connRead r) = closing (conn tc).
Proof.
  intros E. apply Read_frame in E. tauto.
Qed.

Lemma Read_only_consumes_witness :
  let c := withSending (streamWith [hello] deadlinePassed) TCPConn [hel] None in
  let r := {| bytesRead := 5; readErr := None;
              dataAfter := Some (stringPayload "hello");
              connRead := setInbox c [] |} in
  outbox (connRead r) = outbox c /\
  writeFault (connRead r) = writeFault c /\
  impl (connRead r) = impl c /\
  closing (connRead r) = closing c.
Proof.
  apply (@Read_only_consumes StringPayload _ 16%nat
           (NewTypedConnection StringPayload
              (withSending (streamWith [hello] deadlinePassed) TCPConn [hel] None)
              ConnectionTypeTCP)
           (Some (stringPayload "")) None).
  reflexivity.
Defined.

(* ================================================================== *)
(** ** Write *)

Lemma conn_Write_frame (c : Conn) (b : list byte) :
  inbox (connAfter (conn_Write c b)) = inbox c /\
  closing (connAfter (conn_Write c b)) = closing c /\
  impl (connAfter (conn_Write c b)) = impl c /\
  writeFault (connAfter (conn_Write c b)) = writeFault c.
Proof.
  unfold conn_Write. destruct (writeFault c) as [[taken e]|] eqn:F;
    cbn; rewrite ?F; repeat split.
Qed.

Lemma conn_Write_appends (c : Conn) (b : list byte) :
  exists taken : nat,
    outbox (connAfter (conn_Write c b)) = outbox c ++ [firstn taken b] /\
    count (conn_Write c b) = Z.of_nat (List.length (firstn taken b)).
Proof.
  unfold conn_Write. destruct (writeFault c) as [[taken e]|].
  - exists taken. split; reflexivity.
  - exists (List.length b). rewrite firstn_all. split; reflexivity.
Qed.

(** X9.  The count [Write] returns is the number of bytes it put on the
    wire.  It only adds to what was sent, what it adds is a front part of
    the marshalled value (nothing when [Marshal] fails), and it leaves
    the receiving side of the connection alone. *)
Theorem Write_count_is_what_went_out
    (T : Type) `{Convertable T} (tc : TypedConnection T) (v : T) :
  let w := Write tc v in
  (exists (added : list (list byte)) (taken : nat),
     outbox (connAfter w) = outbox (conn tc) ++ added /\
     List.concat added = firstn taken (fst (Marshal v)) /\
     count w = Z.of_nat (List.length (List.concat added))) /\
  inbox (connAfter w) = inbox (conn tc) /\
  closing (connAfter w) = closing (conn tc) /\
  impl (connAfter w) = impl (conn tc) /\
  writeFault (connAfter w) = writeFault (conn tc).
Proof.
  cbv zeta. unfold Write.
  destruct (Marshal v) as [bytes [cause|]]; cbn [fst].
  - split; [|repeat split].
    exists [], 0%nat. cbn. rewrite app_nil_r. repeat split.
  - split; [|apply conn_Write_frame].
    destruct (conn_Write_appends (conn tc) bytes) as (taken & Hout & Hcount).
    exists [firstn taken bytes], taken. cbn [List.concat]. rewrite app_nil_r.
    repeat split; assumption.
Qed.

(** X10.  [Write] reports no error exactly when [Marshal] succeeded and
    the transport took the write; the whole marshalled value then went
    out as one buffer and its length is the count. *)
Theorem Write_succeeds_iff
    (T : Type) `{Convertable T} (tc : TypedConnection T) (v : T) :
  failure (Write tc v) = None <->
  exists bytes : list byte,
    Marshal v = (bytes, None) /\
    writeFault (conn tc) = None /\
    count (Write tc v) = Z.of_nat (List.length bytes) /\
    outbox (connAfter (Write tc v)) = outbox (conn tc) ++ [bytes].
Proof.
  unfold Write.
  destruct (Marshal v) as [bytes [cause|]]; split.
  - intros E. discriminate E.
  - intros (b & E & _). discriminate E.
  - unfold conn_Write. destruct (writeFault (conn tc)) as [[taken e]|]; intros E.
    + discriminate E.
    + exists bytes. repeat split.
  - intros (b & E & F & _). unfold conn_Write. rewrite F. reflexivity.
Qed.

(** X11.  An error of the transport comes back from [Write] as it is,
    not joined with anything, together with the number of bytes the
    transport took before it failed. *)
Theorem Write_transport_error_as_it_is
    (T : Type) `{Convertable T} (tc : TypedConnection T) (v : T)
    (bytes : list byte) (taken : nat) (e : error) :
  Marshal v = (bytes, None) ->
  writeFault (conn tc) = Some (taken, e) ->
  failure (Write tc v) = Some e /\
  count (Write tc v) = Z.of_nat (Nat.min taken (List.length bytes)) /\
  outbox (connAfter (Write tc v)) = outbox (conn tc) ++ [firstn taken bytes].
Proof.
  intros Hm Hf. unfold Write. rewrite Hm. unfold conn_Write. rewrite Hf.
  cbn [failure count connAfter setOutbox outbox]. rewrite length_firstn.
  repeat split.
Qed.

Lemma Write_transport_error_as_it_is_witness :
  let w := Write (NewTypedConnection StringPayload (failingStream 2) ConnectionTypeTCP)
                 (stringPayload "hello") in
  failure w = Some errBrokenPipe /\
  count w = 2 /\
  outbox (connAfter w) = [he].
Proof.
  apply (@Write_transport_error_as_it_is StringPayload _
           (NewTypedConnection StringPayload (failingStream 2) ConnectionTypeTCP)
           (stringPayload "hello") hello 2%nat errBrokenPipe); reflexivity.
Defined.

(* ================================================================== *)
(** ** ReadFrom *)

Lemma firstn_of_repeat (A : Type) (x : A) (k n : nat) :
  firstn k (repeat x n) = repeat x (Nat.min k n).
Proof.
  revert n. induction k as [|k IH]; intros [|n]; cbn; try reflexivity.
  rewrite IH. reflexivity.
Qed.

Lemma TCPConn_ReadFrom_frame (c : Conn) (src : list byte) :
  inbox (connAfter (TCPConn_ReadFrom c src)) = inbox c /\
  closing (connAfter (TCPConn_ReadFrom c src)) = closing c /\
  impl (connAfter (TCPConn_ReadFrom c src)) = impl c /\
  writeFault (connAfter (TCPConn_ReadFrom c src)) = writeFault c.
Proof.
  unfold TCPConn_ReadFrom. destruct src; [repeat split|apply conn_Write_frame].
Qed.

Lemma TCPConn_ReadFrom_barred (c : Conn) (src : list byte) :
  barred (connAfter (TCPConn_ReadFrom c src)) = barred c.
Proof.
  unfold TCPConn_ReadFrom, conn_Write.
  destruct src; [reflexivity|]. destruct (writeFault c) as [[taken e]|]; reflexivity.
Qed.

Lemma TCPConn_ReadFrom_appends (c : Conn) (src : list byte) :
  exists added : list (list byte),
    outbox (connAfter (TCPConn_ReadFrom c src)) = outbox c ++ added /\
    count (TCPConn_ReadFrom c src) = Z.of_nat (List.length (List.concat added)).
Proof.
  unfold TCPConn_ReadFrom. destruct src as [|b src'].
  - exists []. cbn. rewrite app_nil_r. split; reflexivity.
  - destruct (conn_Write_appends c (b :: src')) as (taken & Hout & Hcount).
    exists [firstn taken (b :: src')]. cbn [List.concat]. rewrite app_nil_r.
    split; assumption.
Qed.

Lemma TCPConn_ReadFrom_sending_only (c : Conn) (segments : list (list byte))
    (fin : option (list byte * error)) (src : list byte) :
  count (TCPConn_ReadFrom (withIncoming c segments fin) src)
  = count (TCPConn_ReadFrom c src) /\
  failure (TCPConn_ReadFrom (withIncoming c segments fin) src)
  = failure (TCPConn_ReadFrom c src).
Proof.
  unfold TCPConn_ReadFrom, conn_Write. destruct src; [split; reflexivity|].
  cbn [writeFault withIncoming].
  destruct (writeFault c) as [[taken e]|]; split; reflexivity.
Qed.

Section ReadFromMore.

Context {T : Type} `{Convertable T}.

Lemma ReadFrom_frame (ttc : TCPTypedConnection T) (data : option T)
    (opts : option (list ReadOptions)) (r : received T) :
  ReadFrom ttc data opts = Returned r ->
  inbox (connRead r) = inbox (conn (embedded ttc)) /\
  closing (connRead r) = closing (conn (embedded ttc)) /\
  impl (connRead r) = impl (conn (embedded ttc)) /\
  writeFault (connRead r) = writeFault (conn (embedded ttc)).
Proof.
  unfold ReadFrom.
  destruct (variadicReadOpts opts) as [ro| | |]; try discriminate. cbn [bind].
  destruct (impl (conn (embedded ttc))) eqn:K;
    try (intros E; inversion E; subst r; cbn; rewrite K; repeat split).
  destruct (make_len (BufferSize ro)) as [buffer| | |]; try discriminate. cbn [bind]. cbv zeta.
  pose proof (TCPConn_ReadFrom_frame (conn (embedded ttc)) buffer) as F.
  rewrite K in F.
  destruct (failure (TCPConn_ReadFrom (conn (embedded ttc)) buffer)) as [e|].
  - intros E. inversion E. subst r. exact F.
  - destruct (Unmarshal zeroValue _) as [newData [e|]].
    + intros E. inversion E. subst r. exact F.
    + destruct data as [old|]; [|discriminate].
      intros E. inversion E. subst r. exact F.
Qed.

Lemma ReadFrom_barred (ttc : TCPTypedConnection T) (data : option T)
    (opts : option (list ReadOptions)) (r : received T) :
  ReadFrom ttc data opts = Returned r ->
  barred (connRead r) = barred (conn (embedded ttc)).
Proof.
  unfold ReadFrom.
  destruct (variadicReadOpts opts) as [ro| | |]; try discriminate. cbn [bind].
  destruct (impl (conn (embedded ttc))) eqn:K;
    try (intros E; inversion E; subst r; reflexivity).
  destruct (make_len (BufferSize ro)) as [buffer| | |]; try discriminate.
  cbn [bind]. cbv zeta.
  pose proof (TCPConn_ReadFrom_barred (conn (embedded ttc)) buffer) as F.
  destruct (failure (TCPConn_ReadFrom (conn (embedded ttc)) buffer)) as [e|].
  - intros E. inversion E. subst r. exact F.
  - destruct (Unmarshal zeroValue _) as [newData [e|]].
    + intros E. inversion E. subst r. exact F.
    + destruct data as [old|]; [|discriminate].
      intros E. inversion E. subst r. exact F.
Qed.

(** What [ReadFrom] does on a TCP connection that takes the write. *)
Lemma ReadFrom_TCP_takes_the_write (ttc : TCPTypedConnection T) (data : option T)
    (opts : option (list ReadOptions)) (ro : ReadOptions) :
  variadicReadOpts opts = Returned ro ->
  impl (conn (embedded ttc)) = TCPConn ->
  writeFault (conn (embedded ttc)) = None ->
  0 <= BufferSize ro <= maxAlloc ->
  let c := conn (embedded ttc) in
  let zeros := repeat x00 (Z.to_nat (BufferSize ro)) in
  let c' := match zeros with
            | [] => c
            | _ => setOutbox c (outbox c ++ [zeros])
            end in
  ReadFrom ttc data opts =
  match Unmarshal zeroValue zeros with
  | (_, Some _) =>
      Returned {| bytesRead := BufferSize ro;
                  readErr := Some (joinError
                    [fmt.Errorf_s "could not unmarshal incoming buffer into "
                                  pointerTypeName]);
                  dataAfter := data;
                  connRead := c' |}
  | (newData, None) =>
      match data with
      | None => Panicked nilPointerDereference
      | Some _ =>
          Returned {| bytesRead := BufferSize ro;
                      readErr := None;
                      dataAfter := Some newData;
                      connRead := c' |}
      end
  end.
Proof.
  intros Hopts Htcp Hwf Hbuf c zeros c'.
  unfold ReadFrom. rewrite Hopts. cbn [bind]. rewrite Htcp.
  rewrite make_len_in_range by lia.
  cbn [bind]. fold zeros. fold c.
  assert (Hsent : TCPConn_ReadFrom c zeros =
                  {| count := BufferSize ro; failure := None; connAfter := c' |}).
  { unfold c', TCPConn_ReadFrom. destruct zeros as [|b rest] eqn:Hz.
    - assert (Z.to_nat (BufferSize ro) = O) as E0.
      { unfold zeros in Hz. destruct (Z.to_nat (BufferSize ro)); [reflexivity|discriminate]. }
      f_equal. lia.
    - rewrite <- Hz. unfold conn_Write. fold c in Hwf. rewrite Hwf.
      unfold zeros at 1. rewrite repeat_length, Z2Nat.id by lia. reflexivity. }
  rewrite Hsent. cbn [count failure connAfter].
  assert (Hall : firstn (Z.to_nat (BufferSize ro)) zeros = zeros).
  { apply firstn_all2. unfold zeros. rewrite repeat_length. lia. }
  rewrite Hall.
  destruct (Unmarshal zeroValue zeros) as [newData [cause|]]; reflexivity.
Qed.

End ReadFromMore.

(** X12.  [ReadFrom] never takes a byte from the connection: whenever it
    returns, the inbox and what lies behind it are what they were.  It
    only adds to what was sent, and the count it returns is the number of
    bytes it sent. *)
Theorem ReadFrom_never_reads
    (T : Type) `{Convertable T} (ttc : TCPTypedConnection T) (data : option T)
    (opts : option (list ReadOptions)) (r : received T) :
  ReadFrom ttc data opts = Returned r ->
  inbox (connRead r) = inbox (conn (embedded ttc)) /\
  closing (connRead r) = closing (conn (embedded ttc)) /\
  exists added : list (list byte),
    outbox (connRead r) = outbox (conn (embedded ttc)) ++ added /\
    bytesRead r = Z.of_nat (List.length (List.concat added)).
Proof.
  intros E. pose proof (ReadFrom_frame ttc data opts E) as (Fi & Fc & _ & _).
  split; [exact Fi|]. split; [exact Fc|].
  revert E. unfold ReadFrom.
  destruct (variadicReadOpts opts) as [ro| | |]; try discriminate. cbn [bind].
  destruct (impl (conn (embedded ttc)));
    try (intros E; inversion E; subst r; exists []; cbn; rewrite app_nil_r;
         split; reflexivity).
  destruct (make_len (BufferSize ro)) as [buffer| | |]; try discriminate.
  cbn [bind]. cbv zeta.
  destruct (TCPConn_ReadFrom_appends (conn (embedded ttc)) buffer) as (added & Ho & Hn).
  destruct (failure (TCPConn_ReadFrom (conn (embedded ttc)) buffer)) as [e|].
  - intros E. inversion E. subst r. exists added. split; assumption.
  - destruct (Unmarshal zeroValue _) as [newData [e|]].
    + intros E. inversion E. subst r. exists added. split; assumption.
    + destruct data as [old|]; [|discriminate].
      intros E. inversion E. subst r. exists added. split; assumption.
Qed.

Lemma ReadFrom_never_reads_witness :
  let c := streamWith [hello] peerClosed in
  let r := {| bytesRead := 8; readErr := None;
              dataAfter := Some (stringPayload (string_of_list_byte (repeat x00 8)));
              connRead := setOutbox c [repeat x00 8] |} in
  inbox (connRead r) = inbox c /\
  closing (connRead r) = closing c /\
  exists added : list (list byte),
    outbox (connRead r) = outbox c ++ added /\
    bytesRead r = Z.of_nat (List.length (List.concat added)).
Proof.
  apply (@ReadFrom_never_reads StringPayload _
           (NewTCPTypedConnection StringPayload (streamWith [hello] peerClosed))
           (Some (stringPayload "")) (Some [smallOptions])).
  reflexivity.
Defined.

(** X13.  What [ReadFrom] returns and stores does not depend on what the
    connection received: with the inbox, and what lies behind it,
    replaced by any others, the values returned and the destination are
    the same, for every connection, destination and options. *)
Theorem ReadFrom_ignores_what_arrived
    (T : Type) `{Convertable T} (c : Conn) (segments : list (list byte))
    (fin : option (list byte * error)) (data : option T)
    (opts : option (list ReadOptions)) :
  observed (ReadFrom (NewTCPTypedConnection T (withIncoming c segments fin)) data opts)
  = observed (ReadFrom (NewTCPTypedConnection T c) data opts).
Proof.
  unfold ReadFrom.
  destruct (variadicReadOpts opts) as [ro| | |]; try reflexivity. cbn [bind].
  cbn [embedded conn NewTCPTypedConnection]. cbn [impl withIncoming].
  destruct (impl c); try reflexivity.
  destruct (make_len (BufferSize ro)) as [buffer| | |]; try reflexivity.
  cbn [bind]. cbv zeta.
  destruct (TCPConn_ReadFrom_sending_only c segments fin buffer) as (-> & ->).
  destruct (failure (TCPConn_ReadFrom c buffer)) as [e|]; [reflexivity|].
  destruct (Unmarshal zeroValue _) as [newData [e|]]; [reflexivity|].
  destruct data; reflexivity.
Qed.

(** X14.  When the transport fails during the transfer, [ReadFrom], with
    a buffer size in (0, maxAlloc], returns the number of bytes the
    transport took, and the join of a
    fresh error with the transport's error, in which [errors.Is] finds
    that error.  Nothing is unmarshalled and the destination is left as
    it was, also when it is nil. *)
Theorem ReadFrom_transfer_failure
    (T : Type) `{Convertable T} (ttc : TCPTypedConnection T) (data : option T)
    (opts : option (list ReadOptions)) (ro : ReadOptions) (taken : nat) (e : error) :
  variadicReadOpts opts = Returned ro ->
  impl (conn (embedded ttc)) = TCPConn ->
  writeFault (conn (embedded ttc)) = Some (taken, e) ->
  0 < BufferSize ro <= maxAlloc ->
  let sent := repeat x00 (Nat.min taken (Z.to_nat (BufferSize ro))) in
  let wrapped := joinError [errors.New "could not receive incoming buffer"; e] in
  ReadFrom ttc data opts
  = Returned {| bytesRead := Z.of_nat (Nat.min taken (Z.to_nat (BufferSize ro)));
                readErr := Some wrapped;
                dataAfter := data;
                connRead := setOutbox (conn (embedded ttc))
                              (outbox (conn (embedded ttc)) ++ [sent]) |} /\
  errors.Is wrapped e = true.
Proof.
  intros Hopts Htcp Hwf Hbuf sent wrapped. split.
  - unfold ReadFrom. rewrite Hopts. cbn [bind]. rewrite Htcp.
    rewrite make_len_in_range by lia.
    cbn [bind]. cbv zeta.
    destruct (Z.to_nat (BufferSize ro)) as [|n] eqn:En; [lia|].
    cbn [repeat TCPConn_ReadFrom]. unfold conn_Write. rewrite Hwf.
    cbn [count failure connAfter errors.Join errors.nonNil].
    change (x00 :: repeat x00 n) with (repeat x00 (S n)).
    rewrite firstn_of_repeat, repeat_length. reflexivity.
  - apply Is_joinError_member. right. left. reflexivity.
Qed.

Lemma ReadFrom_transfer_failure_witness :
  let c := failingStream 3 in
  let wrapped :=
    joinError [errors.New "could not receive incoming buffer"; errBrokenPipe] in
  ReadFrom (NewTCPTypedConnection StringPayload c) None (Some [smallOptions])
  = Returned {| bytesRead := 3; readErr := Some wrapped; dataAfter := None;
                connRead := setOutbox c [repeat x00 3] |} /\
  errors.Is wrapped errBrokenPipe = true.
Proof.
  apply (@ReadFrom_transfer_failure StringPayload _
           (NewTCPTypedConnection StringPayload (failingStream 3)) None
           (Some [smallOptions]) smallOptions 3%nat errBrokenPipe);
    try reflexivity; unfold maxAlloc; simpl; lia.
Defined.

(** X15.  [ReadFrom] does not check its destination.  On a TCP connection
    that takes the write, a call with a buffer size in [0, maxAlloc] and a
    nil destination panics on the
    final store when the zero bytes unmarshal, after the bytes went out;
    when they do not unmarshal it returns the error and no panic
    happens. *)
Theorem ReadFrom_nil_destination
    (T : Type) `{Convertable T} (ttc : TCPTypedConnection T)
    (opts : option (list ReadOptions)) (ro : ReadOptions) :
  variadicReadOpts opts = Returned ro ->
  impl (conn (embedded ttc)) = TCPConn ->
  writeFault (conn (embedded ttc)) = None ->
  0 <= BufferSize ro <= maxAlloc ->
  match snd (Unmarshal zeroValue (repeat x00 (Z.to_nat (BufferSize ro)))) with
  | None => ReadFrom ttc None opts = Panicked nilPointerDereference
  | Some _ =>
      exists r : received T,
        ReadFrom ttc None opts = Returned r /\
        bytesRead r = BufferSize ro /\
        readErr r = Some (joinError
          [fmt.Errorf_s "could not unmarshal incoming buffer into " pointerTypeName]) /\
        dataAfter r = None
  end.
Proof.
  intros Hopts Htcp Hwf Hbuf.
  pose proof (ReadFrom_TCP_takes_the_write ttc None opts Hopts Htcp Hwf Hbuf) as R.
  cbv zeta in R. rewrite R.
  destruct (Unmarshal zeroValue (repeat x00 (Z.to_nat (BufferSize ro))))
    as [newData [cause|]]; cbn [snd]; [|reflexivity].
  eexists. split; [reflexivity|]. repeat split.
Qed.

Lemma ReadFrom_nil_destination_witness :
  ReadFrom (NewTCPTypedConnection StringPayload (streamWith [hello] None)) None None
  = Panicked nilPointerDereference.
Proof.
  exact (@ReadFrom_nil_destination StringPayload _
           (NewTCPTypedConnection StringPayload (streamWith [hello] None))
           None defaultReadOptions eq_refl eq_refl eq_refl
           ltac:(unfold maxAlloc; simpl; lia)).
Defined.

(** X16.  A negative buffer size makes [ReadFrom] panic on a TCP
    connection only: the buffer is made inside the TCP case of the type
    switch, and on every other connection the call returns zero bytes and
    the "invalid connection type" error. *)
Theorem ReadFrom_negative_buffer_size
    (T : Type) `{Convertable T} (ttc : TCPTypedConnection T) (data : option T)
    (opts : option (list ReadOptions)) (ro : ReadOptions) :
  variadicReadOpts opts = Returned ro ->
  BufferSize ro < 0 ->
  ReadFrom ttc data opts
  = match impl (conn (embedded ttc)) with
    | TCPConn => Panicked makesliceLenOutOfRange
    | _ => Returned {| bytesRead := 0;
                       readErr := Some invalidConnectionType;
                       dataAfter := data;
                       connRead := conn (embedded ttc) |}
    end.
Proof.
  intros Hopts Hneg. unfold ReadFrom. rewrite Hopts. cbn [bind].
  destruct (impl (conn (embedded ttc))); try reflexivity.
  rewrite make_len_out_of_range; [reflexivity|left; exact Hneg].
Qed.

Lemma ReadFrom_negative_buffer_size_witness :
  ReadFrom (NewTCPTypedConnection StringPayload (idle TCPConn))
           (Some (stringPayload "")) (Some [negativeBuffer])
  = Panicked makesliceLenOutOfRange.
Proof.
  apply (@ReadFrom_negative_buffer_size StringPayload _
           (NewTCPTypedConnection StringPayload (idle TCPConn))
           (Some (stringPayload "")) (Some [negativeBuffer]) negativeBuffer).
  - reflexivity.
  - simpl. lia.
Defined.

(** X17.  [ReadFrom] followed by [Read]: once [ReadFrom] has returned,
    a [Read] on the connection it left behind returns and stores what a
    [Read] in its place would have: the data that was waiting is still
    there. *)
Theorem Read_after_ReadFrom
    (T : Type) `{Convertable T} (fuel : nat) (ttc : TCPTypedConnection T)
    (data data' : option T) (opts opts' : option (list ReadOptions))
    (ct : ConnectionType) (r : received T) :
  ReadFrom ttc data opts = Returned r ->
  observed (Read fuel (NewTypedConnection T (connRead r) ct) data' opts')
  = observed (Read fuel (embedded ttc) data' opts').
Proof.
  intros E. pose proof (ReadFrom_barred ttc data opts E) as Fb.
  apply ReadFrom_frame in E. destruct E as (Fi & Fc & Fk & _).
  apply Read_observed_incoming; assumption.
Qed.

Lemma Read_after_ReadFrom_witness :
  observed (Read 16 (NewTypedConnection StringPayload
                       (setOutbox (streamWith [hello] deadlinePassed) [repeat x00 8])
                       ConnectionTypeTCP)
                 (Some (stringPayload "")) None)
  = observed (Read 16 (NewTypedConnection StringPayload
                         (streamWith [hello] deadlinePassed) ConnectionTypeTCP)
                   (Some (stringPayload "")) None).
Proof.
  apply (@Read_after_ReadFrom StringPayload _ 16%nat
           (NewTCPTypedConnection StringPayload (streamWith [hello] deadlinePassed))
           (Some (stringPayload "")) (Some (stringPayload ""))
           (Some [smallOptions]) None ConnectionTypeTCP
           {| bytesRead := 8; readErr := None;
              dataAfter := Some (stringPayload (string_of_list_byte (repeat x00 8)));
              connRead := setOutbox (streamWith [hello] deadlinePassed)
                            [repeat x00 8] |}).
  reflexivity.
Defined.

(* ================================================================== *)
(** ** The cause inside a conversion error *)

(** X18.  When [Marshal] fails, [errors.Is] finds the cause in the error
    [Write] returns, and finds [io.EOF] in it only when the cause itself
    matches [io.EOF]. *)
Theorem Write_error_keeps_the_cause
    (T : Type) `{Convertable T} (tc : TypedConnection T) (v : T)
    (partial : list byte) (cause : error) :
  Marshal v = (partial, Some cause) ->
  exists e : error,
    failure (Write tc v) = Some e /\
    errors.Is e cause = true /\
    errors.Is e io.EOF = errors.Is cause io.EOF.
Proof.
  intros Hm. unfold Write. rewrite Hm.
  eexists. split; [reflexivity|]. split.
  - apply Is_joinError_member. right. left. reflexivity.
  - cbn. rewrite orb_false_r. reflexivity.
Qed.

Lemma Write_error_keeps_the_cause_witness :
  exists e : error,
    failure (Write (NewTypedConnection Token (idle TCPConn) ConnectionTypeTCP)
                   (token "")) = Some e /\
    errors.Is e errEmptyToken = true /\
    errors.Is e io.EOF = errors.Is errEmptyToken io.EOF.
Proof.
  apply (@Write_error_keeps_the_cause Token _
           (NewTypedConnection Token (idle TCPConn) ConnectionTypeTCP)
           (token "") [] errEmptyToken).
  reflexivity.
Defined.

(** X19.  When [Read] (buffer size in [0, maxAlloc], chunk size in
    (0, maxAlloc]; connection open on this side, read deadline not
    passed) gathered bytes that [Unmarshal] refuses (all that were
    waiting; on a UDP connection the part of every datagram that fits the
    chunk), [errors.Is] finds the cause in the error [Read] returns, and finds
    [io.EOF] in it only when the cause itself matches [io.EOF]; the error
    of the read that ended the loop is not reported. *)
Theorem Read_error_keeps_the_cause
    (T : Type) `{Convertable T} (fuel : nat) (tc : TypedConnection T) (old : T)
    (opts : option (list ReadOptions)) (ro : ReadOptions)
    (last : list byte) (e : error) (partial : T) (cause : error) :
  variadicReadOpts opts = Returned ro ->
  0 <= BufferSize ro <= maxAlloc ->
  0 < ChunkSize ro <= maxAlloc ->
  barred (conn tc) = None ->
  closing (conn tc) = Some (last, e) ->
  errors.Is e io.EOF = false ->
  (inboxCost (inbox (conn tc)) < fuel)%nat ->
  Unmarshal zeroValue
    (gathered (impl (conn tc)) (Z.to_nat (ChunkSize ro)) (inbox (conn tc)))
  = (partial, Some cause) ->
  exists (r : received T) (wrapped : error),
    Read fuel tc (Some old) opts = Returned r /\
    readErr r = Some wrapped /\
    errors.Is wrapped cause = true /\
    errors.Is wrapped io.EOF = errors.Is cause io.EOF.
Proof.
  intros Hopts Hbuf Hchunk Hbar Hfin Hnot Hfuel Hu.
  rewrite (Read_drains tc old opts (last := last) (e := e)
             Hopts Hbuf Hchunk Hbar Hfin Hfuel).
  rewrite Hnot. cbv zeta. rewrite Hu. eexists. eexists.
  split; [reflexivity|]. split; [reflexivity|].
  split.
  - apply Is_joinError_member. right. left. reflexivity.
  - cbn. rewrite orb_false_r. reflexivity.
Qed.

Lemma Read_error_keeps_the_cause_witness :
  exists (r : received Token) (wrapped : error),
    Read 16 (NewTypedConnection Token (streamWith [spoiled] deadlinePassed)
                                ConnectionTypeTCP)
         (Some (token "before")) None = Returned r /\
    readErr r = Some wrapped /\
    errors.Is wrapped errBadToken = true /\
    errors.Is wrapped io.EOF = errors.Is errBadToken io.EOF.
Proof.
  apply (@Read_error_keeps_the_cause Token _ 16%nat
           (NewTypedConnection Token (streamWith [spoiled] deadlinePassed)
                               ConnectionTypeTCP)
           (token "before") None defaultReadOptions [] errTimeout (token "")
           errBadToken);
    try reflexivity; unfold maxAlloc; simpl; lia.
Defined.

(* ================================================================== *)
(** ** The connection-type tag, DialTCP and Accept *)

(** X20.  The name of a connection type tells the two constants apart:
    it is "tcp" for [ConnectionTypeTCP] alone, "udp" for
    [ConnectionTypeUDP] alone, and "unknown" for every other value. *)
Theorem ConnectionType_String_names
    (ct : ConnectionType) :
  (ConnectionType_String ct = "tcp" <-> ct = ConnectionTypeTCP) /\
  (ConnectionType_String ct = "udp" <-> ct = ConnectionTypeUDP) /\
  (ConnectionType_String ct = "unknown" <->
   ct <> ConnectionTypeTCP /\ ct <> ConnectionTypeUDP).
Proof.
  unfold ConnectionType_String, ConnectionTypeTCP, ConnectionTypeUDP.
  destruct (Z.eqb_spec ct 0) as [E0|N0]; [|destruct (Z.eqb_spec ct 1) as [E1|N1]].
  - subst ct. repeat split; try discriminate; try reflexivity; intros; lia.
  - subst ct. repeat split; try discriminate; try reflexivity; intros; lia.
  - repeat split; try discriminate; try assumption; intros; try lia; reflexivity.
Qed.

(** X21.  [DialTCP] dials the network "tcp" at the address host:port.  It
    hands back either a wrapper and no error, or no wrapper and the error
    of the dial as it is; the wrapper holds the connection that was
    dialled and is tagged as TCP. *)
Theorem DialTCP_wraps_or_fails
    (T : Type) (net_Dial : dialer) (host port : string) :
  match DialTCP T net_Dial host port with
  | (Some ttc, None) =>
      net_Dial "tcp" (String.append host (String.append ":" port))
      = inl (conn (embedded ttc)) /\
      TypedConnection_ConnectionType (embedded ttc) = ConnectionTypeTCP
  | (None, Some e) =>
      net_Dial "tcp" (String.append host (String.append ":" port)) = inr e
  | _ => False
  end.
Proof.
  unfold DialTCP.
  destruct (net_Dial "tcp" (String.append host (String.append ":" port))) as [c|e].
  - split; reflexivity.
  - reflexivity.
Qed.

Lemma acceptMany_hands_out_the_backlog (T : Type) (n : nat) :
  forall l : TCPListener,
    listenFault l = None ->
    map (fun ttc : TCPTypedConnection T => conn (embedded ttc))
        (acceptMany n (NewTypedTCPSocketListener T l))
    = firstn n (backlog l).
Proof.
  induction n as [|n IH]; intros l Hok; [reflexivity|].
  cbn [acceptMany]. unfold Accept, TCPListener_Accept.
  cbn [listener NewTypedTCPSocketListener]. rewrite Hok.
  destruct (backlog l) as [|c rest]; [reflexivity|].
  cbn [map firstn]. f_equal.
  apply (IH {| backlog := rest; listenFault := None |}). reflexivity.
Qed.

(** X22.  Calls of [Accept] on a listener that reports no error hand out
    the waiting connections oldest first, each one wrapped as it is and
    tagged as TCP. *)
Theorem Accept_hands_out_in_order
    (T : Type) (l : TCPListener) (n : nat) :
  listenFault l = None ->
  map (fun ttc : TCPTypedConnection T => conn (embedded ttc))
      (acceptMany n (NewTypedTCPSocketListener T l))
  = firstn n (backlog l) /\
  Forall (fun ttc : TCPTypedConnection T =>
            TypedConnection_ConnectionType (embedded ttc) = ConnectionTypeTCP)
         (acceptMany n (NewTypedTCPSocketListener T l)).
Proof.
  intros Hok. split; [apply acceptMany_hands_out_the_backlog; exact Hok|].
  revert l Hok. induction n as [|n IH]; intros l Hok; [constructor|].
  cbn [acceptMany]. unfold Accept, TCPListener_Accept.
  cbn [listener NewTypedTCPSocketListener]. rewrite Hok.
  destruct (backlog l) as [|c rest]; [constructor|].
  constructor; [reflexivity|].
  apply (IH {| backlog := rest; listenFault := None |}). reflexivity.
Qed.

Lemma Accept_hands_out_in_order_witness :
  let l := {| backlog := [streamWith [hello] None; idle TCPConn; streamWith [lo] None];
              listenFault := None |} in
  map (fun ttc : TCPTypedConnection StringPayload => conn (embedded ttc))
      (acceptMany 2 (NewTypedTCPSocketListener StringPayload l))
  = [streamWith [hello] None; idle TCPConn] /\
  Forall (fun ttc : TCPTypedConnection StringPayload =>
            TypedConnection_ConnectionType (embedded ttc) = ConnectionTypeTCP)
         (acceptMany 2 (NewTypedTCPSocketListener StringPayload l)).
Proof.
  apply (@Accept_hands_out_in_order StringPayload
           {| backlog := [streamWith [hello] None; idle TCPConn; streamWith [lo] None];
              listenFault := None |} 2%nat).
  reflexivity.
Defined.

(** X23.  On a listener that reports an error (a closed one), [Accept]
    does not wait: it returns no wrapper and that error as it is, and the
    connections that were waiting stay where they are, however often it is
    called. *)
Theorem Accept_on_a_failed_listener
    (T : Type) (l : TCPListener) (e : error) (n : nat) :
  listenFault l = Some e ->
  Accept (NewTypedTCPSocketListener T l)
  = Returned (None, Some e, NewTypedTCPSocketListener T l) /\
  acceptMany n (NewTypedTCPSocketListener T l) = [].
Proof.
  intros Hf.
  assert (E : Accept (NewTypedTCPSocketListener T l)
              = Returned (None, Some e, NewTypedTCPSocketListener T l)).
  { unfold Accept, TCPListener_Accept.
    cbn [listener NewTypedTCPSocketListener]. rewrite Hf. reflexivity. }
  split; [exact E|].
  destruct n as [|n]; [reflexivity|]. cbn [acceptMany]. rewrite E. reflexivity.
Qed.

Lemma Accept_on_a_failed_listener_witness :
  let l := {| backlog := [idle TCPConn]; listenFault := Some errListenerClosed |} in
  Accept (NewTypedTCPSocketListener StringPayload l)
  = Returned (None, Some errListenerClosed, NewTypedTCPSocketListener StringPayload l) /\
  acceptMany 3 (NewTypedTCPSocketListener StringPayload l) = [].
Proof.
  apply (@Accept_on_a_failed_listener StringPayload
           {| backlog := [idle TCPConn]; listenFault := Some errListenerClosed |}
           errListenerClosed 3%nat).
  reflexivity.
Defined.

(* ================================================================== *)
(** ** What a return of Read means *)

(** Whenever the loop is left, the last read failed, and a read on the
    connection as the loop left it fails in the same way; what the loop
    took from the connection is a front part of what was waiting, and a
    buffer it is left with holds these bytes behind what it held
    before. *)
Lemma readLoop_takes (fuel : nat) :
  forall (c : Conn) (size : nat) (buffer : list byte) (how : loopExit) (c' : Conn),
    impl c <> UDPConn ->
    readLoop fuel c size buffer = Returned (how, c') ->
    exists (taken chunk : list byte) (e : error),
      List.concat (inbox c) = taken ++ List.concat (inbox c') /\
      conn_Read c' size = Some (chunk, Some e, c') /\
      how = if errors.Is e io.EOF
            then returnEOF (Z.of_nat (List.length chunk)) e
            else breakWith (buffer ++ taken).
Proof.
  induction fuel as [|fuel IH]; intros c size buffer how c' Hk E; [discriminate|].
  cbn [readLoop] in E.
  destruct (conn_Read c size) as [[[chunk [err|]] d]|] eqn:R; [| |discriminate].
  - pose proof (@conn_Read_error_keeps _ _ _ _ _ R) as Hd. subst d.
    exists [], chunk, err.
    destruct (errors.Is err io.EOF) eqn:Heof; inversion E; subst;
      (split; [reflexivity|]); (split; [exact R|]);
      rewrite ?app_nil_r; reflexivity.
  - pose proof (@conn_Read_takes _ _ _ _ Hk R) as Hfront.
    pose proof (@conn_Read_frame_all _ _ _ _ _ R) as (Hk' & _).
    apply IH in E; [|congruence].
    destruct E as (taken & last & e & Hrest & Hlast & Hhow).
    exists (chunk ++ taken), last, e.
    split; [rewrite Hfront, Hrest, app_assoc; reflexivity|].
    split; [exact Hlast|].
    rewrite Hhow, <- app_assoc. reflexivity.
Qed.


Section ReadMeans.

Context {T : Type} `{Convertable T}.

(** The loop behind a return of [Read] for a destination that is not
    nil. *)
Lemma Read_returns (fuel : nat) (tc : TypedConnection T) (old : T)
    (opts : option (list ReadOptions)) (r : received T) :
  Read fuel tc (Some old) opts = Returned r ->
  exists (ro : ReadOptions) (how : loopExit),
    variadicReadOpts opts = Returned ro /\
    0 <= BufferSize ro <= maxAlloc /\
    0 <= ChunkSize ro <= maxAlloc /\
    readLoop fuel (conn tc) (Z.to_nat (ChunkSize ro)) [] = Returned (how, connRead r) /\
    match how with
    | returnEOF amount err =>
        bytesRead r = amount /\ readErr r = Some err /\ dataAfter r = Some old
    | breakWith buffer =>
        match Unmarshal zeroValue buffer with
        | (_, Some cause) =>
            readErr r = Some (joinError
              [errors.New "unmarshal of data returned an error"; cause]) /\
            dataAfter r = Some old /\ bytesRead r = 0
        | (newData, None) =>
            readErr r = None /\ dataAfter r = Some newData /\
            bytesRead r = Z.of_nat (List.length buffer)
        end
    end.
Proof.
  unfold Read.
  destruct (variadicReadOpts opts) as [ro| | |]; try discriminate. cbn [bind].
  destruct (make_cap (BufferSize ro)) as [buffer| | |] eqn:Hcap; try discriminate.
  cbn [bind].
  destruct (make_len (ChunkSize ro)) as [chunk| | |] eqn:Hlen; try discriminate.
  cbn [bind].
  apply make_cap_returns in Hcap. destruct Hcap as (-> & Hb).
  apply make_len_returns in Hlen. destruct Hlen as (-> & Hc).
  rewrite repeat_length.
  destruct (readLoop fuel (conn tc) (Z.to_nat (ChunkSize ro)) []) as [[how c']| | |] eqn:L;
    try discriminate.
  cbn [bind]. intros E. exists ro, how.
  split; [reflexivity|]. split; [exact Hb|]. split; [exact Hc|].
  destruct how as [amount err|buffer].
  - inversion E. subst r. cbn. repeat split. exact L.
  - destruct (Unmarshal zeroValue buffer) as [newData [cause|]];
      inversion E; subst r; cbn; repeat split; exact L.
Qed.

(** When the first read fails, [Read] is left with an empty buffer and
    the connection as it was. *)
Lemma Read_first_read_fails (fuel : nat) (tc : TypedConnection T) (old : T)
    (opts : option (list ReadOptions)) (ro : ReadOptions)
    (chunk : list byte) (e : error) :
  variadicReadOpts opts = Returned ro ->
  0 <= BufferSize ro <= maxAlloc ->
  0 <= ChunkSize ro <= maxAlloc ->
  conn_Read (conn tc) (Z.to_nat (ChunkSize ro)) = Some (chunk, Some e, conn tc) ->
  Read (S fuel) tc (Some old) opts =
  if errors.Is e io.EOF
  then Returned {| bytesRead := Z.of_nat (List.length chunk);
                   readErr := Some e;
                   dataAfter := Some old;
                   connRead := conn tc |}
  else match Unmarshal zeroValue [] with
       | (_, Some cause) =>
           Returned {| bytesRead := 0;
                       readErr := Some (joinError
                         [errors.New "unmarshal of data returned an error"; cause]);
                       dataAfter := Some old;
                       connRead := conn tc |}
       | (newData, None) =>
           Returned {| bytesRead := 0;
                       readErr := None;
                       dataAfter := Some newData;
                       connRead := conn tc |}
       end.
Proof.
  intros Hopts Hbuf Hchunk Hread.
  unfold Read. rewrite Hopts. cbn [bind].
  rewrite make_cap_in_range by lia. cbn [bind].
  rewrite make_len_in_range by lia. cbn [bind]. rewrite repeat_length.
  cbn [readLoop]. rewrite Hread.
  destruct (errors.Is e io.EOF); [reflexivity|]. cbn [bind].
  destruct (Unmarshal zeroValue []) as [newData [cause|]]; reflexivity.
Qed.

End ReadMeans.

(** X24.  On a connection that is not a UDP connection, [Read] returns
    without an error only after an underlying read failed with an error
    that is not an end-of-stream (a read on the connection as [Read] left
    it fails in the same way).  The value stored is then what [Unmarshal]
    makes of exactly the bytes [Read] took from the connection, a front
    part of what was waiting, in the order in which they arrived, and
    the count is their number. *)
Theorem Read_success_means
    (T : Type) `{Convertable T} (fuel : nat) (tc : TypedConnection T) (old : T)
    (opts : option (list ReadOptions)) (r : received T) :
  impl (conn tc) <> UDPConn ->
  Read fuel tc (Some old) opts = Returned r ->
  readErr r = None ->
  exists (ro : ReadOptions) (taken chunk : list byte) (e : error) (v : T),
    variadicReadOpts opts = Returned ro /\
    conn_Read (connRead r) (Z.to_nat (ChunkSize ro))
    = Some (chunk, Some e, connRead r) /\
    errors.Is e io.EOF = false /\
    List.concat (inbox (conn tc)) = taken ++ List.concat (inbox (connRead r)) /\
    Unmarshal zeroValue taken = (v, None) /\
    dataAfter r = Some v /\
    bytesRead r = Z.of_nat (List.length taken).
Proof.
  intros Hk E Hok. apply Read_returns in E.
  destruct E as (ro & how & Hopts & _ & _ & L & Hcase).
  apply readLoop_takes in L; [|exact Hk].
  destruct L as (taken & chunk & e & Hfront & Hlast & Hhow).
  exists ro, taken, chunk, e.
  destruct (errors.Is e io.EOF) eqn:Heof; subst how.
  - destruct Hcase as (_ & He & _). congruence.
  - cbn [app] in Hcase.
    destruct (Unmarshal zeroValue taken) as [newData [cause|]] eqn:Hu.
    + destruct Hcase as (He & _). congruence.
    + destruct Hcase as (_ & Hd & Hn). exists newData.
      repeat split; assumption.
Qed.

Lemma Read_success_means_witness :
  let c := pastDeadline (streamWith [hello] None) in
  let r := {| bytesRead := 0; readErr := None;
              dataAfter := Some (stringPayload "");
              connRead := c |} in
  exists (ro : ReadOptions) (taken chunk : list byte) (e : error)
         (v : StringPayload),
    variadicReadOpts None = Returned ro /\
    conn_Read (connRead r) (Z.to_nat (ChunkSize ro))
    = Some (chunk, Some e, connRead r) /\
    errors.Is e io.EOF = false /\
    List.concat (inbox c) = taken ++ List.concat (inbox (connRead r)) /\
    Unmarshal zeroValue taken = (v, None) /\
    dataAfter r = Some v /\
    bytesRead r = Z.of_nat (List.length taken).
Proof.
  apply (@Read_success_means StringPayload _ 16%nat
           (NewTypedConnection StringPayload (pastDeadline (streamWith [hello] None))
                               ConnectionTypeTCP)
           (stringPayload "hi") None
           {| bytesRead := 0; readErr := None;
              dataAfter := Some (stringPayload "");
              connRead := pastDeadline (streamWith [hello] None) |});
    try reflexivity; discriminate.
Defined.



(** X26.  Whenever [Read] returns an error, the destination holds what
    it held before the call. *)
Theorem Read_error_leaves_the_destination
    (T : Type) `{Convertable T} (fuel : nat) (tc : TypedConnection T)
    (data : option T) (opts : option (list ReadOptions)) (r : received T) :
  Read fuel tc data opts = Returned r ->
  readErr r <> None ->
  dataAfter r = data.
Proof.
  intros E Herr. destruct data as [old|].
  - apply Read_returns in E.
    destruct E as (ro & how & _ & _ & _ & _ & Hcase).
    destruct how as [amount err|buffer].
    + tauto.
    + destruct (Unmarshal zeroValue buffer) as [newData [cause|]]; [tauto|].
      destruct Hcase as (He & _). contradiction.
  - inversion E. reflexivity.
Qed.

Lemma Read_error_leaves_the_destination_witness :
  dataAfter {| bytesRead := 0;
               readErr := Some (joinError
                 [errors.New "unmarshal of data returned an error"; errBadToken]);
               dataAfter := Some (token "before");
               connRead := streamWith [] deadlinePassed |}
  = Some (token "before").
Proof.
  apply (@Read_error_leaves_the_destination Token _ 16%nat
           (NewTypedConnection Token (streamWith [spoiled] deadlinePassed)
                               ConnectionTypeTCP)
           (Some (token "before")) None).
  - reflexivity.
  - discriminate.
Defined.

(** X27.  Whenever [ReadFrom] returns an error, the destination holds
    what it held before the call. *)
Theorem ReadFrom_error_leaves_the_destination
    (T : Type) `{Convertable T} (ttc : TCPTypedConnection T)
    (data : option T) (opts : option (list ReadOptions)) (r : received T) :
  ReadFrom ttc data opts = Returned r ->
  readErr r <> None ->
  dataAfter r = data.
Proof.
  unfold ReadFrom.
  destruct (variadicReadOpts opts) as [ro| | |]; try discriminate. cbn [bind].
  destruct (impl (conn (embedded ttc)));
    try (intros E _; inversion E; reflexivity).
  destruct (make_len (BufferSize ro)) as [buffer| | |]; try discriminate.
  cbn [bind]. cbv zeta.
  destruct (failure (TCPConn_ReadFrom (conn (embedded ttc)) buffer)) as [e|].
  - intros E _. inversion E. reflexivity.
  - destruct (Unmarshal zeroValue _) as [newData [e|]].
    + intros E _. inversion E. reflexivity.
    + destruct data as [old|]; [|discriminate].
      intros E Herr. inversion E. subst r. cbn in Herr. contradiction.
Qed.

Lemma ReadFrom_error_leaves_the_destination_witness :
  dataAfter {| bytesRead := 8;
               readErr := Some (joinError
                 [errors.New "could not unmarshal incoming buffer into *netutils.Token"]);
               dataAfter := Some (token "before");
               connRead := setOutbox (idle TCPConn) [repeat x00 8] |}
  = Some (token "before").
Proof.
  apply (@ReadFrom_error_leaves_the_destination Token _
           (NewTCPTypedConnection Token (idle TCPConn))
           (Some (token "before")) (Some [smallOptions])).
  - reflexivity.
  - discriminate.
Defined.

(* ================================================================== *)
(** ** Reads that fail at once, and reads into an empty chunk *)

(** X4.  With a chunk size of zero (and a buffer size in [0, maxAlloc])
    [Read] never returns on a TCP or UDP connection that is not closed on
    this side: every read into the empty chunk comes back at once with no
    bytes and no error, so the loop is still running after any number of
    rounds, whatever the connection holds, also when the peer has closed
    or a read deadline has passed. *)
Theorem Read_with_zero_chunk_never_returns
    (T : Type) `{Convertable T} (tc : TypedConnection T) (old : T)
    (opts : option (list ReadOptions)) (ro : ReadOptions) :
  variadicReadOpts opts = Returned ro ->
  0 <= BufferSize ro <= maxAlloc ->
  ChunkSize ro = 0 ->
  impl (conn tc) <> pipeConn ->
  (forall e : error, barred (conn tc) <> Some (closedHere e)) ->
  forall fuel : nat, Read fuel tc (Some old) opts = OutOfFuel.
Proof.
  intros Hopts Hbuf Hchunk Hk Hopen fuel.
  unfold Read. rewrite Hopts. cbn [bind].
  rewrite make_cap_in_range by lia. cbn [bind].
  rewrite make_len_in_range by (rewrite Hchunk; unfold maxAlloc; lia).
  rewrite Hchunk. cbn [bind Z.to_nat repeat List.length].
  rewrite readLoop_empty_chunk_spins by assumption. reflexivity.
Qed.

Lemma Read_with_zero_chunk_never_returns_witness :
  Read 1000 (NewTypedConnection StringPayload
               (pastDeadline (streamWith [hello] peerClosed)) ConnectionTypeTCP)
       (Some (stringPayload "")) (Some [zeroChunk])
  = OutOfFuel.
Proof.
  apply (@Read_with_zero_chunk_never_returns StringPayload _
           (NewTypedConnection StringPayload
              (pastDeadline (streamWith [hello] peerClosed)) ConnectionTypeTCP)
           (stringPayload "") (Some [zeroChunk]) zeroChunk);
    try reflexivity; try discriminate; try (unfold maxAlloc; simpl; lia).
Defined.

(** X28.  On a TCP or UDP connection whose read deadline had passed
    before the call (or that was closed on this side), the first read of
    [Read] (buffer size in [0, maxAlloc], chunk size in (0, maxAlloc])
    fails at once and nothing is taken from the connection, whatever is
    waiting there.  When the error is an end-of-stream [Read] returns it
    with zero bytes; otherwise it unmarshals the empty buffer: it returns
    zero bytes and no error and overwrites the destination when the empty
    buffer unmarshals, and the join of a fresh error with the cause when
    it does not. *)
Theorem Read_behind_a_passed_deadline
    (T : Type) `{Convertable T} (fuel : nat) (tc : TypedConnection T) (old : T)
    (opts : option (list ReadOptions)) (ro : ReadOptions) (b : readBar) :
  variadicReadOpts opts = Returned ro ->
  0 <= BufferSize ro <= maxAlloc ->
  0 < ChunkSize ro <= maxAlloc ->
  impl (conn tc) <> pipeConn ->
  barred (conn tc) = Some b ->
  Read (S fuel) tc (Some old) opts =
  if errors.Is (barError b) io.EOF
  then Returned {| bytesRead := 0;
                   readErr := Some (barError b);
                   dataAfter := Some old;
                   connRead := conn tc |}
  else match Unmarshal zeroValue [] with
       | (_, Some cause) =>
           Returned {| bytesRead := 0;
                       readErr := Some (joinError
                         [errors.New "unmarshal of data returned an error"; cause]);
                       dataAfter := Some old;
                       connRead := conn tc |}
       | (newData, None) =>
           Returned {| bytesRead := 0;
                       readErr := None;
                       dataAfter := Some newData;
                       connRead := conn tc |}
       end.
Proof.
  intros Hopts Hbuf Hchunk Hk Hbar.
  destruct (Z.to_nat (ChunkSize ro)) as [|k] eqn:Hsize; [lia|].
  rewrite (@Read_first_read_fails T _ fuel tc old opts ro [] (barError b));
    try assumption; try lia; [reflexivity|].
  rewrite Hsize. apply conn_Read_barred_socket; assumption.
Qed.

Lemma Read_behind_a_passed_deadline_witness :
  let c := pastDeadline (streamWith [hello] None) in
  Read 1 (NewTypedConnection StringPayload c ConnectionTypeTCP)
       (Some (stringPayload "before")) None
  = Returned {| bytesRead := 0; readErr := None;
                dataAfter := Some (stringPayload "");
                connRead := c |}.
Proof.
  exact (@Read_behind_a_passed_deadline StringPayload _ 0%nat
           (NewTypedConnection StringPayload (pastDeadline (streamWith [hello] None))
                               ConnectionTypeTCP)
           (stringPayload "before") None defaultReadOptions
           (deadlineOver errTimeout)
           eq_refl
           ltac:(unfold maxAlloc; simpl; lia)
           ltac:(unfold maxAlloc; simpl; lia)
           ltac:(discriminate)
           eq_refl).
Defined.

(** X29.  On a pipe a read into an empty chunk is a read like any other:
    with a chunk size of zero, on a pipe that nothing bars, with nothing
    on its way and the peer closed, [Read] returns zero bytes and the
    end-of-stream error and leaves the destination as it was; for another
    error behind the data it unmarshals the empty buffer. *)
Theorem Read_with_zero_chunk_on_a_pipe
    (T : Type) `{Convertable T} (fuel : nat) (tc : TypedConnection T) (old : T)
    (opts : option (list ReadOptions)) (ro : ReadOptions)
    (last : list byte) (e : error) :
  variadicReadOpts opts = Returned ro ->
  0 <= BufferSize ro <= maxAlloc ->
  ChunkSize ro = 0 ->
  impl (conn tc) = pipeConn ->
  barred (conn tc) = None ->
  inbox (conn tc) = [] ->
  closing (conn tc) = Some (last, e) ->
  Read (S fuel) tc (Some old) opts =
  if errors.Is e io.EOF
  then Returned {| bytesRead := 0;
                   readErr := Some e;
                   dataAfter := Some old;
                   connRead := conn tc |}
  else match Unmarshal zeroValue [] with
       | (_, Some cause) =>
           Returned {| bytesRead := 0;
                       readErr := Some (joinError
                         [errors.New "unmarshal of data returned an error"; cause]);
                       dataAfter := Some old;
                       connRead := conn tc |}
       | (newData, None) =>
           Returned {| bytesRead := 0;
                       readErr := None;
                       dataAfter := Some newData;
                       connRead := conn tc |}
       end.
Proof.
  intros Hopts Hbuf Hchunk Hk Hbar Hin Hfin.
  rewrite (@Read_first_read_fails T _ fuel tc old opts ro [] e);
    try assumption; try (rewrite Hchunk; unfold maxAlloc; lia); [reflexivity|].
  rewrite Hchunk. unfold conn_Read, takeData. rewrite Hbar, Hk, Hin, Hfin.
  reflexivity.
Qed.

Lemma Read_with_zero_chunk_on_a_pipe_witness :
  Read 1 (NewTypedConnection StringPayload (pipeWith [] peerClosed) ConnectionTypeTCP)
       (Some (stringPayload "before")) (Some [zeroChunk])
  = Returned {| bytesRead := 0; readErr := Some io.EOF;
                dataAfter := Some (stringPayload "before");
                connRead := pipeWith [] peerClosed |}.
Proof.
  exact (@Read_with_zero_chunk_on_a_pipe StringPayload _ 0%nat
           (NewTypedConnection StringPayload (pipeWith [] peerClosed) ConnectionTypeTCP)
           (stringPayload "before") (Some [zeroChunk]) zeroChunk [] io.EOF
           eq_refl
           ltac:(unfold maxAlloc; simpl; lia)
           eq_refl eq_refl eq_refl eq_refl eq_refl).
Defined.

(** X30.  On a connection that was closed on this side every read fails,
    also a read into an empty chunk: [Read], with a buffer size and a
    chunk size in [0, maxAlloc], returns after its first read with
    nothing taken from the connection, and unmarshals the empty buffer
    when the error is not an end-of-stream. *)
Theorem Read_on_a_closed_connection
    (T : Type) `{Convertable T} (fuel : nat) (tc : TypedConnection T) (old : T)
    (opts : option (list ReadOptions)) (ro : ReadOptions) (e : error) :
  variadicReadOpts opts = Returned ro ->
  0 <= BufferSize ro <= maxAlloc ->
  0 <= ChunkSize ro <= maxAlloc ->
  barred (conn tc) = Some (closedHere e) ->
  Read (S fuel) tc (Some old) opts =
  if errors.Is e io.EOF
  then Returned {| bytesRead := 0;
                   readErr := Some e;
                   dataAfter := Some old;
                   connRead := conn tc |}
  else match Unmarshal zeroValue [] with
       | (_, Some cause) =>
           Returned {| bytesRead := 0;
                       readErr := Some (joinError
                         [errors.New "unmarshal of data returned an error"; cause]);
                       dataAfter := Some old;
                       connRead := conn tc |}
       | (newData, None) =>
           Returned {| bytesRead := 0;
                       readErr := None;
                       dataAfter := Some newData;
                       connRead := conn tc |}
       end.
Proof.
  intros Hopts Hbuf Hchunk Hbar.
  rewrite (@Read_first_read_fails T _ fuel tc old opts ro [] e);
    try assumption; [reflexivity|].
  unfold conn_Read. rewrite Hbar. reflexivity.
Qed.

Lemma Read_on_a_closed_connection_witness :
  let c := closedConn (streamWith [hello] None) in
  Read 1 (NewTypedConnection StringPayload c ConnectionTypeTCP)
       (Some (stringPayload "before")) (Some [zeroChunk])
  = Returned {| bytesRead := 0; readErr := None;
                dataAfter := Some (stringPayload "");
                connRead := c |}.
Proof.
  exact (@Read_on_a_closed_connection StringPayload _ 0%nat
           (NewTypedConnection StringPayload (closedConn (streamWith [hello] None))
                               ConnectionTypeTCP)
           (stringPayload "before") (Some [zeroChunk]) zeroChunk errClosed
           eq_refl
           ltac:(unfold maxAlloc; simpl; lia)
           ltac:(unfold maxAlloc; simpl; lia)
           eq_refl).
Defined.
